(** * feedscraper: the home-feed harvester ([feedscraper/feed.py])

    A shallow embedding of [Feed.get_sidebar_ads] and of the generator
    [HomeFeed.browse].  The browser (selenium's webdriver) and the helpers
    of the sibling modules ([extractors.post_el], [Post.from_home_element],
    [utils.warning], ...) are kept abstract: the driver is a world that
    every call threads through, and each call the generator makes on it is
    recorded in a trace of events. *)

From Equations Require Import Equations.
From Stdlib Require Import List Sorted Arith Lia Bool Ascii String NArith ZArith
  QArith Lqa.
Import ListNotations.

Set Default Goal Selector "!".

Local Open Scope string_scope.
Local Open Scope nat_scope.
Local Open Scope list_scope.

(** ** The document session *)

(** Argument of [Feed.scroll_to_pos]: it is spliced into
    [window.scrollTo(0, pos)], and the source passes either the number [1]
    or the script expression [document.body.scrollHeight]. *)
Inductive scroll_pos : Type :=
| Offset (y : Z)
| BodyScrollHeight.

Section Harvester.

(** [Element]: a selenium WebElement; [Post]: feedscraper.post.Post;
    [Field]: the extractors.Field enum; [Exn]: a raised
    NoSuchElementException. *)
Variables Element Post Field Exn : Type.

(** What the generator needs from the driver.  Every operation threads
    the browser state [World]. *)
Record Session : Type := {
  World : Type;
  (** [self.driver.execute_script(f"window.scrollTo(0, {pos});")] *)
  scroll_to_pos : scroll_pos -> World -> World;
  (** [time.sleep] *)
  sleep : Q -> World -> World;
  (** [self.driver.find_element(By.XPATH, '//div[@role="feed"]')] *)
  find_feed_el : World -> (Exn + Element) * World;
  (** [extractors.post_el(feed_el, i)] *)
  post_el : Element -> nat -> World -> (Exn + Element) * World;
  (** [Post.from_home_element(self, post_element, fields=fields)] *)
  from_home_element : Element -> list Field -> World -> (Exn + Post) * World;
  (** [list(Field)] *)
  all_fields : list Field
}.

(** Payload of a [utils.warning] call. *)
Inductive warning : Type :=
| ScrollFailCount (post_count scroll_fail_count : nat)
| LoadFailCount (post_count load_fail_count : nat)
| Traceback
| ExnText (e : Exn).

(** The calls a harvest makes, in program order. *)
Inductive event : Type :=
| Scroll (pos : scroll_pos)
| Sleep (seconds : Q)
| FindFeed (found : bool)
| Probe (i : nat) (found : bool)
| Yield (i : nat) (p : Post)
| LogError (msg : string)
| Print (e : Exn)
| Warn (m : warning).

Definition trace : Type := list event.

(** *** Trace observations *)

Definition probes (tr : trace) : list (nat * bool) :=
  flat_map (fun ev => match ev with Probe i b => [(i, b)] | _ => [] end) tr.

Definition yields (tr : trace) : list (nat * Post) :=
  flat_map (fun ev => match ev with Yield i p => [(i, p)] | _ => [] end) tr.

Definition scrolls (tr : trace) : list scroll_pos :=
  flat_map (fun ev => match ev with Scroll pos => [pos] | _ => [] end) tr.

Definition sleeps (tr : trace) : list Q :=
  flat_map (fun ev => match ev with Sleep s => [s] | _ => [] end) tr.

Definition warnings (tr : trace) : list warning :=
  flat_map (fun ev => match ev with Warn m => [m] | _ => [] end) tr.

Definition is_bottom (pos : scroll_pos) : bool :=
  match pos with BodyScrollHeight => true | Offset _ => false end.

(** Number of scroll cycles: calls of [scroll_to_bottom]. *)
Definition scroll_cycles (tr : trace) : nat :=
  List.length (filter is_bottom (scrolls tr)).

Definition positions_probed (tr : trace) : list nat := map fst (probes tr).
Definition positions_found (tr : trace) : list nat :=
  map fst (filter snd (probes tr)).
Definition positions_yielded (tr : trace) : list nat := map fst (yields tr).

(** ** class Feed *)

(** [Feed.SCROLL_PAUSE = 1.2] *)
Definition SCROLL_PAUSE : Q := 1.2%Q.

Variable DS : Session.

Local Abbreviation world := (World DS).

(** [Feed.scroll_to_top]: [self.scroll_to_pos(1)]. *)
Definition scroll_to_top (w : world) : trace * world :=
  ([Scroll (Offset 1)], scroll_to_pos DS (Offset 1) w).

(** [Feed.scroll_to_bottom]: scroll to [document.body.scrollHeight], then
    [sleep(Feed.SCROLL_PAUSE)]. *)
Definition scroll_to_bottom (w : world) : trace * world :=
  let w1 := scroll_to_pos DS BodyScrollHeight w in
  ([Scroll BodyScrollHeight; Sleep SCROLL_PAUSE], sleep DS SCROLL_PAUSE w1).

(** ** HomeFeed.browse *)

(** The expression under both [yield]s:
    [Post.from_home_element(self, extractors.post_el(feed_el, i), fields=fields)].
    [inl e] is a raised NoSuchElementException; the argument is evaluated
    first, so a failed lookup never reaches [from_home_element]. *)
Definition probe (feed_el : Element) (i : nat) (fields : list Field)
    (w : world) : (Exn + Post) * world :=
  match post_el DS feed_el i w with
  | (inl e, w1) => (inl e, w1)
  | (inr post_element, w1) => from_home_element DS post_element fields w1
  end.

(** [post_count = 0  # Count of posts found]: assigned once, never updated. *)
Definition post_count : nat := 0.

(** Where a generator object is between two [next] calls.  [AtYield] is the
    [yield] of line 165, [AtRetryYield] the one of line 185; both keep the
    frame's locals.  [Returned] keeps [i] and [scroll_fail_count] as they
    were when the [while] test failed. *)
Inductive frame : Type :=
| Created (fields : option (list Field))
| AtYield (feed_el : Element) (fields : list Field) (i scroll_fail_count : nat)
| AtRetryYield (feed_el : Element) (fields : list Field)
    (i scroll_fail_count load_fail_count : nat)
| Returned (i scroll_fail_count : nat)
| Exited (code : Z).

(** What a [next] call gives its caller. *)
Inductive signal : Type :=
| Yielded (p : Post)
| StopIteration
| SystemExit (code : Z).

Record step : Type := {
  log : trace;
  sig : signal;
  after : frame;
  now : world
}.

(** Prefix a step's log with what ran before it. *)
Definition and_then (tr : trace) (s : step) : step :=
  {| log := tr ++ log s; sig := sig s; after := after s; now := now s |}.

(** Outcome of the inner [while load_fail_count < 10] loop: it either
    reaches its [yield] or falls out of the loop. *)
Inductive retried : Type :=
| Loaded (tr : trace) (p : Post) (load_fail_count : nat) (w : world)
| GaveUp (tr : trace) (load_fail_count : nat) (w : world).

Definition retried_then (tr : trace) (r : retried) : retried :=
  match r with
  | Loaded tr' p n w => Loaded (tr ++ tr') p n w
  | GaveUp tr' n w => GaveUp (tr ++ tr') n w
  end.

Definition retried_log (r : retried) : trace :=
  match r with Loaded tr _ _ _ | GaveUp tr _ _ => tr end.

(** How the inner loop ended, and the value of [load_fail_count] then. *)
Definition retried_ctl (r : retried) : bool * nat :=
  match r with
  | Loaded _ _ n _ => (true, n)
  | GaveUp _ n _ => (false, n)
  end.

(** Lines 183-198. *)
Equations? load_retry (feed_el : Element) (fields : list Field)
    (i load_fail_count : nat) (w : world) : retried
    by wf (10 - load_fail_count) lt :=
  load_retry feed_el fields i load_fail_count w with lt_dec load_fail_count 10 := {
    | right _ => GaveUp [] load_fail_count w
    | left _ with probe feed_el i fields w := {
        | (inr p, w1) => Loaded [Probe i true; Yield i p] p load_fail_count w1
        | (inl e, w1) =>
            let w2 := sleep DS 0.5%Q w1 in
            let load_fail_count' := load_fail_count + 1 in
            retried_then
              [Probe i false; Sleep 0.5%Q;
               Warn (LoadFailCount post_count load_fail_count');
               Warn Traceback; Warn (ExnText e)]
              (load_retry feed_el fields i load_fail_count' w2) } }.
Proof.
  subst load_fail_count'.
  change (10 - (load_fail_count + 1) < 10 - load_fail_count). lia.
Qed.

(** Lines 163-200, from the [while scroll_fail_count < 10] test up to the
    next suspension or to the end of the loop. *)
Equations? harvest (feed_el : Element) (fields : list Field)
    (i scroll_fail_count : nat) (w : world) : step
    by wf (10 - scroll_fail_count) lt :=
  harvest feed_el fields i scroll_fail_count w with lt_dec scroll_fail_count 10 := {
    | right _ =>
        {| log := []; sig := StopIteration;
           after := Returned i scroll_fail_count; now := w |}
    | left _ with probe feed_el i fields w := {
        | (inr p, w1) =>
            {| log := [Probe i true; Yield i p]; sig := Yielded p;
               after := AtYield feed_el fields i scroll_fail_count; now := w1 |}
        | (inl e, w1) =>
            let scroll_fail_count' := scroll_fail_count + 1 in
            let '(tr_scroll, w2) := scroll_to_bottom w1 in
            let w3 := sleep DS SCROLL_PAUSE w2 in
            let tr :=
              [Probe i false;
               Warn (ScrollFailCount post_count scroll_fail_count');
               Warn (ExnText e)] ++ tr_scroll ++ [Sleep SCROLL_PAUSE] in
            match load_retry feed_el fields i 0 w3 with
            | Loaded tr' p load_fail_count w4 =>
                {| log := tr ++ tr'; sig := Yielded p;
                   after := AtRetryYield feed_el fields i scroll_fail_count'
                              load_fail_count;
                   now := w4 |}
            | GaveUp tr' _ w4 =>
                (* finally: i += 1 *)
                and_then (tr ++ tr')
                  (harvest feed_el fields (i + 1) scroll_fail_count' w4)
            end } }.
Proof.
  subst scroll_fail_count'.
  change (10 - (scroll_fail_count + 1) < 10 - scroll_fail_count). lia.
Qed.

(** [list(Field) if fields is None else fields] *)
Definition fields_or_all (fields : option (list Field)) : list Field :=
  match fields with None => all_fields DS | Some fs => fs end.

(** [HomeFeed.browse(fields)]: calling a generator function runs none of its
    body; it returns the generator object, whose body [next] then runs from
    the top. *)
Definition browse (fields : option (list Field)) : frame := Created fields.

(** One [next] call on a generator object. *)
Definition next (fr : frame) (w : world) : step :=
  match fr with
  | Created fields =>
      let fields := fields_or_all fields in
      let '(tr_top, w1) := scroll_to_top w in
      match find_feed_el DS w1 with
      | (inl e, w2) =>
          (* utils.error(...); print(e); traceback.format_exc(); exit(1) *)
          {| log := tr_top ++ [FindFeed false;
                               LogError "Could not find feed element!";
                               Print e];
             sig := SystemExit 1; after := Exited 1; now := w2 |}
      | (inr feed_el, w2) =>
          and_then (tr_top ++ [FindFeed true]) (harvest feed_el fields 1 0 w2)
      end
  | AtYield feed_el fields i scroll_fail_count =>
      (* finally: i += 1 *)
      harvest feed_el fields (i + 1) scroll_fail_count w
  | AtRetryYield feed_el fields i _ _ =>
      (* scroll_fail_count = 0; load_fail_count = 0; break; finally: i += 1 *)
      harvest feed_el fields (i + 1) 0 w
  | Returned _ _ | Exited _ =>
      {| log := []; sig := StopIteration; after := fr; now := w |}
  end.

End Harvester.

Arguments World {Element Post Field Exn} s.
Arguments scroll_to_pos {Element Post Field Exn} s pos w.
Arguments sleep {Element Post Field Exn} s seconds w.
Arguments find_feed_el {Element Post Field Exn} s w.
Arguments post_el {Element Post Field Exn} s feed_el i w.
Arguments from_home_element {Element Post Field Exn} s post_element fields w.
Arguments all_fields {Element Post Field Exn} s.
Arguments Scroll {Post Exn} pos.
Arguments Sleep {Post Exn} seconds.
Arguments FindFeed {Post Exn} found.
Arguments Probe {Post Exn} i found.
Arguments Yield {Post Exn} i p.
Arguments LogError {Post Exn} msg.
Arguments Print {Post Exn} e.
Arguments Warn {Post Exn} m.
Arguments ScrollFailCount {Exn} post_count scroll_fail_count.
Arguments LoadFailCount {Exn} post_count load_fail_count.
Arguments Traceback {Exn}.
Arguments ExnText {Exn} e.
Arguments Created {Element Field} fields.
Arguments AtYield {Element Field} feed_el fields i scroll_fail_count.
Arguments AtRetryYield {Element Field} feed_el fields i scroll_fail_count
  load_fail_count.
Arguments Returned {Element Field} i scroll_fail_count.
Arguments Exited {Element Field} code.
Arguments Yielded {Post} p.
Arguments StopIteration {Post}.
Arguments SystemExit {Post} code.
Arguments probes {Post Exn} tr.
Arguments yields {Post Exn} tr.
Arguments scrolls {Post Exn} tr.
Arguments sleeps {Post Exn} tr.
Arguments warnings {Post Exn} tr.
Arguments scroll_cycles {Post Exn} tr.
Arguments positions_probed {Post Exn} tr.
Arguments positions_found {Post Exn} tr.
Arguments positions_yielded {Post Exn} tr.
Arguments log {Element Post Field Exn DS} s.
Arguments sig {Element Post Field Exn DS} s.
Arguments after {Element Post Field Exn DS} s.
Arguments now {Element Post Field Exn DS} s.
Arguments and_then {Element Post Field Exn DS} tr s.
Arguments Loaded {Element Post Field Exn DS} tr p load_fail_count w.
Arguments GaveUp {Element Post Field Exn DS} tr load_fail_count w.
Arguments retried_then {Element Post Field Exn DS} tr r.
Arguments retried_log {Element Post Field Exn DS} r.
Arguments retried_ctl {Element Post Field Exn DS} r.
Arguments scroll_to_top {Element Post Field Exn} DS w.
Arguments scroll_to_bottom {Element Post Field Exn} DS w.
Arguments probe {Element Post Field Exn} DS feed_el i fields w.
Arguments load_retry {Element Post Field Exn} DS feed_el fields i
  load_fail_count w.
Arguments harvest {Element Post Field Exn} DS feed_el fields i
  scroll_fail_count w.
Arguments fields_or_all {Element Post Field Exn} DS fields.
Arguments browse {Element Field} fields.
Arguments next {Element Post Field Exn} DS fr w.

(** ** Consumers and observations *)

Section Consumer.

Variables Element Post Field Exn : Type.
Variable DS : Session Element Post Field Exn.

(** A consumer that advances a generator with at most [n] calls of [next]
    and stops at the first call that does not yield, as
    [itertools.islice(gen, n)] or an interrupted [for] loop would.  It
    leaves the session alone between the calls. *)
Fixpoint consume (n : nat) (fr : frame Element Field) (w : World DS)
    : trace Post Exn * frame Element Field * World DS :=
  match n with
  | 0 => ([], fr, w)
  | S n' =>
      let s := next DS fr w in
      match sig s with
      | Yielded _ =>
          let '(tr, fr', w') := consume n' (after s) (now s) in
          (log s ++ tr, fr', w')
      | _ => (log s, after s, now s)
      end
  end.

(** Whether the expression under a [yield] returned a post. *)
Definition found (r : (Exn + Post) * World DS) : bool :=
  match fst r with inr _ => true | inl _ => false end.

(** The session can answer a probe of position [i] with [b]. *)
Definition answers (i : nat) (b : bool) : Prop :=
  exists el fs w, found (probe DS el i fs w) = b.

(** Every probe recorded in [tr] is an answer the session can give. *)
Definition faithful (tr : trace Post Exn) : Prop :=
  Forall (fun ib => answers (fst ib) (snd ib)) (probes tr).

End Consumer.

Arguments consume {Element Post Field Exn} DS n fr w.
Arguments found {Element Post Field Exn DS} r.
Arguments answers {Element Post Field Exn} DS i b.
Arguments faithful {Element Post Field Exn} DS tr.
Arguments load_retry : simpl never.
Arguments harvest : simpl never.
Arguments next : simpl never.

(** The control part of a frame: where the generator stands and its
    counters, without the handles it holds. *)
Inductive control : Type :=
| CCreated
| CAtYield (i scroll_fail_count : nat)
| CAtRetryYield (i scroll_fail_count load_fail_count : nat)
| CReturned (i scroll_fail_count : nat)
| CExited (code : Z).

Definition control_of {Element Field : Type} (fr : frame Element Field)
    : control :=
  match fr with
  | Created _ => CCreated
  | AtYield _ _ i n => CAtYield i n
  | AtRetryYield _ _ i n k => CAtRetryYield i n k
  | Returned i n => CReturned i n
  | Exited c => CExited c
  end.

(** The value of the loop variable [i] at the generator's next [while]
    test: resuming a suspended attempt runs [finally: i += 1] first. *)
Definition next_position (c : control) : nat :=
  match c with
  | CCreated | CExited _ => 1
  | CAtYield i _ | CAtRetryYield i _ _ => i + 1
  | CReturned i _ => i
  end.

(** The positions probed by attempts at consecutive positions from [i] on,
    the attempts making [ks] probes each. *)
Fixpoint attempts_from (i : nat) (ks : list nat) : list nat :=
  match ks with
  | [] => []
  | k :: ks' => repeat i k ++ attempts_from (i + 1) ks'
  end.

(** [l] is strictly increasing and stays within [a, b). *)
Definition increasing_within (a b : nat) (l : list nat) : Prop :=
  StronglySorted lt l /\ Forall (fun p => a <= p < b) l /\ a <= b.

(** A trace without the objects the session handed over: posts and
    exceptions are replaced by [tt]. *)
Definition erase_warning {Exn : Type} (m : warning Exn) : warning unit :=
  match m with
  | ScrollFailCount c n => ScrollFailCount c n
  | LoadFailCount c n => LoadFailCount c n
  | Traceback => Traceback
  | ExnText _ => ExnText tt
  end.

Definition erase_event {Post Exn : Type} (ev : event Post Exn)
    : event unit unit :=
  match ev with
  | Scroll pos => Scroll pos
  | Sleep s => Sleep s
  | FindFeed b => FindFeed b
  | Probe i b => Probe i b
  | Yield i _ => Yield i tt
  | LogError msg => LogError msg
  | Print _ => Print tt
  | Warn m => Warn (erase_warning m)
  end.

Definition erase {Post Exn : Type} (tr : trace Post Exn) : trace unit unit :=
  map erase_event tr.

Definition erase_signal {Post : Type} (sg : signal Post) : signal unit :=
  match sg with
  | Yielded _ => Yielded tt
  | StopIteration => StopIteration
  | SystemExit c => SystemExit c
  end.

(** The session's answers recorded in a trace: whether the feed element was
    found, and found / not found for each probe, in order. *)
Definition responses {Post Exn : Type} (tr : trace Post Exn) : list bool :=
  flat_map (fun ev => match ev with
                      | FindFeed b => [b]
                      | Probe _ b => [b]
                      | _ => []
                      end) tr.

(** The probes of [m] attempts in a row that each used up all their
    retries, starting at position [i]: eleven failures per position. *)
Definition exhausted (i m : nat) : list (nat * bool) :=
  flat_map (fun p => repeat (p, false) 11) (seq i m).

(** ** Feed.get_sidebar_ads *)

Module Sidebar.

(** A Python [str], as its code points. *)
Definition str : Type := list N.

Definition of_string (s : string) : str :=
  map N_of_ascii (list_ascii_of_string s).

(** The line boundaries of [str.splitlines]: LF, VT, FF, CR, FS, GS, RS,
    NEL, LINE SEPARATOR and PARAGRAPH SEPARATOR. *)
Definition is_line_boundary (c : N) : bool :=
  existsb (N.eqb c) [10; 11; 12; 13; 28; 29; 30; 133; 8232; 8233]%N.

(** [str.splitlines()]: [line] is the current line, reversed; [skip_lf]
    holds right after a CR, whose LF belongs to the same boundary.  A final
    boundary opens no empty last line. *)
Fixpoint splitlines_from (skip_lf : bool) (line : str) (s : str) : list str :=
  match s with
  | [] => match line with [] => [] | _ :: _ => [rev line] end
  | c :: rest =>
      if skip_lf && N.eqb c 10 then splitlines_from false line rest
      else if is_line_boundary c
           then rev line :: splitlines_from (N.eqb c 13) [] rest
           else splitlines_from false (c :: line) rest
  end.

Definition splitlines (s : str) : list str := splitlines_from false [] s.

(** [SidebarAd = namedtuple('SidebarAd', ['text', 'link'])] *)
Record SidebarAd : Type := { text : str; link : str }.

(** Raised when [Feed.SidebarAd] is called on an unpacked [lst] that has
    not exactly the two items of the namedtuple; [given] is the number of
    items. *)
Inductive TypeError : Type := WrongArity (given : nat).

(** [Feed.SidebarAd] called on the unpacked list [lst]. *)
Definition make_ad (lst : list str) : TypeError + SidebarAd :=
  match lst with
  | [t; l] => inr {| text := t; link := l |}
  | _ => inl (WrongArity (List.length lst))
  end.

(** [list(map(f, xs))] for an [f] that may raise: the first failure ends
    the conversion. *)
Fixpoint list_map {A B E : Type} (f : A -> E + B) (xs : list A)
    : E + list B :=
  match xs with
  | [] => inr []
  | x :: xs' =>
      match f x with
      | inl e => inl e
      | inr y =>
          match list_map f xs' with
          | inl e => inl e
          | inr ys => inr (y :: ys)
          end
      end
  end.

Section Query.

(** [Page]: what the driver currently renders; [find_elements page]: the
    elements matching the advertiser XPath, an empty list when there is
    none; [el_text]: the [text] property of a WebElement. *)
Variables Page WebElement : Type.
Variable find_elements : Page -> list WebElement.
Variable el_text : WebElement -> str.

Definition get_sidebar_ads (page : Page) : TypeError + list SidebarAd :=
  let ads_text := find_elements page in
  list_map make_ad (map splitlines (map el_text ads_text)).

End Query.

Arguments get_sidebar_ads {Page WebElement} find_elements el_text page.

(** A page given by the texts of its advertiser spans. *)
Definition ads_of_texts : list str -> TypeError + list SidebarAd :=
  get_sidebar_ads (fun page : list str => page) (fun el : str => el).

End Sidebar.

(** ** Stub sessions *)

Module Stub.

(** Posts and handles are the positions they stand for, an exception is
    the position whose lookup failed, and the only field is [tt]. *)
Definition stub_session : Type := Session nat nat unit nat.

(** A feed whose window answers from a script: each lookup consumes one
    outcome of the script, and an empty script means not found. *)
Definition scripted : stub_session :=
  {| World := list bool;
     scroll_to_pos := fun _ w => w;
     sleep := fun _ w => w;
     find_feed_el := fun w => (inr 0, w);
     post_el := fun _ i w =>
       match w with
       | true :: w' => (inr i, w')
       | false :: w' => (inl i, w')
       | [] => (inl i, [])
       end;
     from_home_element := fun el _ w => (inr el, w);
     all_fields := [tt] |}.

(** A feed with exactly [k] items, at positions [1..k] and all rendered at
    once; the world counts the calls of [scroll_to_pos]. *)
Definition windowed (k : nat) : stub_session :=
  {| World := nat;
     scroll_to_pos := fun _ w => w + 1;
     sleep := fun _ w => w;
     find_feed_el := fun w => (inr 0, w);
     post_el := fun _ i w =>
       (if (1 <=? i) && (i <=? k) then inr i else inl i, w);
     from_home_element := fun el _ w => (inr el, w);
     all_fields := [tt] |}.

(** A page without feed element. *)
Definition no_feed : stub_session :=
  {| World := unit;
     scroll_to_pos := fun _ w => w;
     sleep := fun _ w => w;
     find_feed_el := fun w => (inl 0, w);
     post_el := fun _ i w => (inl i, w);
     from_home_element := fun el _ w => (inr el, w);
     all_fields := [tt] |}.

End Stub.

(** ** Further observations *)

(** The value of [scroll_fail_count] at the generator's next [while] test:
    resuming at the [yield] of the retry loop runs [scroll_fail_count = 0]
    first, resuming at the other [yield] leaves the counter alone. *)
Definition next_scroll_fail_count (c : control) : nat :=
  match c with
  | CCreated | CExited _ | CAtRetryYield _ _ _ => 0
  | CAtYield _ n | CReturned _ n => n
  end.

(** Position [p] was found by a retry: its probes in [tr] failed first and
    succeeded later. *)
Definition found_by_retry {Post Exn : Type} (tr : trace Post Exn) (p : nat)
    : Prop :=
  In (p, false) (probes tr) /\ In (p, true) (probes tr).

(** The seconds a trace spends in [time.sleep]. *)
Definition total_sleep {Post Exn : Type} (tr : trace Post Exn) : Q :=
  fold_right Qplus 0%Q (sleeps tr).

(** The generator is finished: its body has returned or raised. *)
Definition finished {Element Field : Type} (fr : frame Element Field) : bool :=
  match fr with
  | Returned _ _ | Exited _ => true
  | Created _ | AtYield _ _ _ _ | AtRetryYield _ _ _ _ _ => false
  end.

(** ** Texts and line breaks *)

(** No character of [s] is a line boundary. *)
Definition boundary_free (s : Sidebar.str) : Prop :=
  Forall (fun c => Sidebar.is_line_boundary c = false) s.

(** [sep] is one line break for [str.splitlines]: a single boundary
    character, or CR LF. *)
Definition line_break (sep : Sidebar.str) : Prop :=
  (exists c, sep = [c] /\ Sidebar.is_line_boundary c = true) \/
  sep = [13; 10]%N.

(** ** Feed.__init__ and HomeFeed.__init__ *)

Module Login.

(** A selenium locator: [By.ID], [By.NAME] or [By.XPATH] with its value. *)
Inductive locator : Type :=
| ById (value : string)
| ByName (value : string)
| ByXPath (value : string).

(** [webdriver.ChromeOptions()]: the experimental options and the command
    line arguments added so far. *)
Record ChromeOptions : Type := {
  experimental_options : list (string * list (string * Z));
  arguments : list string
}.

Definition add_experimental_option (name : string)
    (value : list (string * Z)) (o : ChromeOptions) : ChromeOptions :=
  {| experimental_options := experimental_options o ++ [(name, value)];
     arguments := arguments o |}.

Definition add_argument (arg : string) (o : ChromeOptions) : ChromeOptions :=
  {| experimental_options := experimental_options o;
     arguments := arguments o ++ [arg] |}.

(** The calls the two constructors make, in program order. *)
Inductive event : Type :=
| StartChrome (options : option ChromeOptions)
| Get (url : string)
| ImplicitlyWait (seconds : Q)
| Find (by_ : locator) (found : bool)
| SendKeys (by_ : locator) (keys : string)
| Click (by_ : locator)
| Confirm (msg : string)
| Sleep (seconds : Q).

Definition finds (tr : list event) : list (locator * bool) :=
  flat_map (fun ev => match ev with Find l b => [(l, b)] | _ => [] end) tr.

Definition sent (tr : list event) : list (locator * string) :=
  flat_map (fun ev => match ev with SendKeys l k => [(l, k)] | _ => [] end) tr.

Definition clicks (tr : list event) : list locator :=
  flat_map (fun ev => match ev with Click l => [l] | _ => [] end) tr.

Definition waits (tr : list event) : list Q :=
  flat_map (fun ev => match ev with ImplicitlyWait s => [s] | _ => [] end) tr.

Definition naps (tr : list event) : list Q :=
  flat_map (fun ev => match ev with Sleep s => [s] | _ => [] end) tr.

Section Driver.

(** [Element]: a WebElement; [Exn]: a raised NoSuchElementException. *)
Variables Element Exn : Type.

(** The webdriver as the constructors use it. *)
Record Browser : Type := {
  World : Type;
  (** [webdriver.Chrome(path, options=...)], a fresh browser *)
  chrome : option ChromeOptions -> World;
  (** [driver.get(url)] *)
  get : string -> World -> World;
  (** [driver.implicitly_wait(seconds)] *)
  implicitly_wait : Q -> World -> World;
  (** [driver.find_element(by, value)] *)
  find_element : locator -> World -> (Exn + Element) * World;
  (** [element.send_keys(keys)] *)
  send_keys : Element -> string -> World -> World;
  (** [element.click()] *)
  click : Element -> World -> World;
  (** [time.sleep] *)
  sleep : Q -> World -> World
}.

Variable B : Browser.

(** A piece of constructor code: it runs on the browser, logs its calls and
    ends normally or by raising NoSuchElementException. *)
Definition action (A : Type) : Type :=
  World B -> (Exn + A) * World B * list event.

Definition ret {A : Type} (a : A) : action A := fun w => (inr a, w, []).

Definition bind {A C : Type} (m : action A) (k : A -> action C) : action C :=
  fun w =>
    match m w with
    | (inl e, w1, tr) => (inl e, w1, tr)
    | (inr a, w1, tr) =>
        let '(r, w2, tr') := k a w1 in (r, w2, tr ++ tr')
    end.

(** [try: body  except NoSuchElementException: pass] *)
Definition try_pass (body : action unit) : action unit :=
  fun w =>
    match body w with
    | (inl _, w1, tr) => (inr tt, w1, tr)
    | (inr tt, w1, tr) => (inr tt, w1, tr)
    end.

Definition do_get (url : string) : action unit :=
  fun w => (inr tt, get B url w, [Get url]).

Definition do_implicitly_wait (s : Q) : action unit :=
  fun w => (inr tt, implicitly_wait B s w, [ImplicitlyWait s]).

Definition do_find (l : locator) : action Element :=
  fun w =>
    match find_element B l w with
    | (inl e, w1) => (inl e, w1, [Find l false])
    | (inr el, w1) => (inr el, w1, [Find l true])
    end.

(** The element is logged by the locator it was found with. *)
Definition do_send_keys (l : locator) (el : Element) (keys : string)
    : action unit :=
  fun w => (inr tt, send_keys B el keys w, [SendKeys l keys]).

Definition do_click (l : locator) (el : Element) : action unit :=
  fun w => (inr tt, click B el w, [Click l]).

Definition do_confirm (msg : string) : action unit :=
  fun w => (inr tt, w, [Confirm msg]).

Definition do_sleep (s : Q) : action unit :=
  fun w => (inr tt, sleep B s w, [Sleep s]).

(** [driver.find_element(by, value).send_keys(keys)] *)
Definition find_and_type (l : locator) (keys : string) : action unit :=
  bind (do_find l) (fun el => do_send_keys l el keys).

(** [driver.find_element(by, value).click()] *)
Definition find_and_click (l : locator) : action unit :=
  bind (do_find l) (fun el => do_click l el).

(** The options [Feed.__init__] builds. *)
Definition feed_options (data_dir : option string) : ChromeOptions :=
  let options := {| experimental_options := []; arguments := [] |} in
  let options :=
    add_experimental_option "prefs"
      [("profile.default_content_setting_values.notifications", 1%Z)]
      options in
  match data_dir with
  | Some d => add_argument (String.append "user-data-dir=" d) options
  | None => options
  end.

(** [Feed.__init__(email, password, data_dir=data_dir)], lines 24-55.  The
    options are built, but [webdriver.Chrome] is called with the driver path
    alone.  The constructor starts a browser of its own, so the world it is
    run on is not used. *)
Definition feed_init (email password : string) (data_dir : option string)
    : action unit :=
  fun _ =>
    let options := feed_options data_dir in
    let w := chrome B None in
    let '(r, w', tr) :=
      bind (do_get "https://www.facebook.com") (fun _ =>
      bind (do_implicitly_wait 0.5%Q) (fun _ =>
      try_pass
        (bind (find_and_type (ById "email") email) (fun _ =>
         bind (find_and_type (ById "pass") password) (fun _ =>
         bind (find_and_click (ByName "login")) (fun _ =>
         do_implicitly_wait 0.5%Q)))))) w in
    (r, w', StartChrome None :: tr).

(** The XPath of the home button, [//a[@aria-label=...]] with the quoted
    label [Home]. *)
Definition home_button : locator :=
  let quote := String (ascii_of_nat 34) EmptyString in
  ByXPath
    (String.append "//a[@aria-label="
       (String.append quote (String.append "Home" (String.append quote "]")))).

(** [HomeFeed.__init__(email, password, data_dir=data_dir)], lines 103-127. *)
Definition home_feed_init (email password : string) (data_dir : option string)
    : action unit :=
  bind (feed_init email password data_dir) (fun _ =>
  bind (try_pass
          (bind (find_and_click home_button) (fun _ =>
           bind (do_confirm "Clicked home") (fun _ =>
           do_sleep 3%Q)))) (fun _ =>
  do_implicitly_wait 5%Q)).

End Driver.

Arguments World {Element Exn} b.
Arguments find_element {Element Exn} b l w.
Arguments feed_init {Element Exn} B email password data_dir w.
Arguments home_feed_init {Element Exn} B email password data_dir w.

End Login.

(** What a warning of the harvest may report: a post count of 0 (the
    variable is never updated) and a fail count between 1 and 10. *)
Definition plausible_warning {Exn : Type} (m : warning Exn) : Prop :=
  match m with
  | ScrollFailCount c n | LoadFailCount c n => c = 0 /\ 1 <= n <= 10
  | Traceback | ExnText _ => True
  end.

(** * Properties *)

Section Facts.

Variables Element Post Field Exn : Type.
Variable DS : Session Element Post Field Exn.
Implicit Types (el : Element) (fs : list Field) (w : World DS).
Implicit Types (tr : trace Post Exn) (i m n sfc lfc : nat).

(** *** Observations distribute over concatenation *)

Lemma probes_app tr tr' : probes (tr ++ tr') = probes tr ++ probes tr'.
Proof. apply flat_map_app. Qed.

Lemma yields_app tr tr' : yields (tr ++ tr') = yields tr ++ yields tr'.
Proof. apply flat_map_app. Qed.

Lemma scrolls_app tr tr' : scrolls (tr ++ tr') = scrolls tr ++ scrolls tr'.
Proof. apply flat_map_app. Qed.

Lemma responses_app tr tr' :
  responses (tr ++ tr') = responses tr ++ responses tr'.
Proof. apply flat_map_app. Qed.

Lemma scroll_cycles_app tr tr' :
  scroll_cycles (tr ++ tr') = scroll_cycles tr + scroll_cycles tr'.
Proof.
  unfold scroll_cycles. now rewrite scrolls_app, filter_app, length_app.
Qed.

Lemma exhausted_S i m :
  exhausted i (S m) = repeat (i, false) 11 ++ exhausted (S i) m.
Proof. reflexivity. Qed.

(** *** The loops, one iteration at a time *)

Lemma load_retry_done el fs i lfc w :
  10 <= lfc -> load_retry DS el fs i lfc w = GaveUp [] lfc w.
Proof.
  intros H. rewrite load_retry_equation_1.
  destruct (lt_dec lfc 10); [lia | reflexivity].
Qed.

Lemma load_retry_step el fs i lfc w :
  lfc < 10 ->
  load_retry DS el fs i lfc w =
  match probe DS el i fs w with
  | (inr p, w1) => Loaded [Probe i true; Yield i p] p lfc w1
  | (inl e, w1) =>
      retried_then
        [Probe i false; Sleep 0.5%Q;
         Warn (LoadFailCount post_count (lfc + 1));
         Warn Traceback; Warn (ExnText e)]
        (load_retry DS el fs i (lfc + 1) (sleep DS 0.5%Q w1))
  end.
Proof.
  intros H. rewrite (load_retry_equation_1 _ _ _ _ DS el fs i lfc w).
  destruct (lt_dec lfc 10); [| lia].
  simpl. destruct (probe DS el i fs w) as [[e | p] w1]; reflexivity.
Qed.

Lemma harvest_done el fs i sfc w :
  10 <= sfc ->
  harvest DS el fs i sfc w =
  {| log := []; sig := StopIteration; after := Returned i sfc; now := w |}.
Proof.
  intros H. rewrite harvest_equation_1.
  destruct (lt_dec sfc 10); [lia | reflexivity].
Qed.

Lemma harvest_step el fs i sfc w :
  sfc < 10 ->
  harvest DS el fs i sfc w =
  match probe DS el i fs w with
  | (inr p, w1) =>
      {| log := [Probe i true; Yield i p]; sig := Yielded p;
         after := AtYield el fs i sfc; now := w1 |}
  | (inl e, w1) =>
      let tr :=
        [Probe i false; Warn (ScrollFailCount post_count (sfc + 1));
         Warn (ExnText e); Scroll BodyScrollHeight; Sleep SCROLL_PAUSE;
         Sleep SCROLL_PAUSE] in
      let w3 := sleep DS SCROLL_PAUSE (snd (scroll_to_bottom DS w1)) in
      match load_retry DS el fs i 0 w3 with
      | Loaded tr' p lfc w4 =>
          {| log := tr ++ tr'; sig := Yielded p;
             after := AtRetryYield el fs i (sfc + 1) lfc; now := w4 |}
      | GaveUp tr' _ w4 =>
          and_then (tr ++ tr') (harvest DS el fs (i + 1) (sfc + 1) w4)
      end
  end.
Proof.
  intros H. rewrite (harvest_equation_1 _ _ _ _ DS el fs i sfc w).
  destruct (lt_dec sfc 10); [| lia].
  simpl. destruct (probe DS el i fs w) as [[e | p] w1]; reflexivity.
Qed.

(** *** What one run of the inner loop looks like *)

Lemma load_retry_shape el fs i lfc w :
  lfc <= 10 ->
  match load_retry DS el fs i lfc w with
  | Loaded tr p j w' =>
      lfc <= j < 10 /\
      probes tr = repeat (i, false) (j - lfc) ++ [(i, true)] /\
      yields tr = [(i, p)] /\ scrolls tr = [] /\
      sleeps tr = repeat 0.5%Q (j - lfc)
  | GaveUp tr j w' =>
      j = 10 /\
      probes tr = repeat (i, false) (10 - lfc) /\
      yields tr = [] /\ scrolls tr = [] /\
      sleeps tr = repeat 0.5%Q (10 - lfc)
  end.
Proof.
  remember (10 - lfc) as k eqn:Hk. revert lfc w Hk.
  induction k as [| k IH]; intros lfc w Hk Hle.
  - rewrite load_retry_done by lia.
    replace (10 - lfc) with 0 by lia. repeat split; lia.
  - rewrite load_retry_step by lia.
    destruct (probe DS el i fs w) as [[e | p] w1].
    + specialize (IH (lfc + 1) (sleep DS 0.5%Q w1)).
      destruct (load_retry DS el fs i (lfc + 1) (sleep DS 0.5%Q w1))
        as [tr p j w' | tr j w']; simpl;
        destruct IH as (H1 & H2 & H3 & H4 & H5); try lia.
      * rewrite H2, H3, H4, H5.
        replace (j - lfc) with (S (j - (lfc + 1))) by lia.
        repeat split; lia.
      * rewrite H2, H3, H4, H5.
        replace (10 - lfc) with (S (10 - (lfc + 1))) by lia.
        repeat split; lia.
    + replace (lfc - lfc) with 0 by lia. repeat split; lia.
Qed.

(** *** What one call of [next] looks like inside the outer loop

    [m] attempts in a row use up all their retries; then the loop ends,
    or the next position is found at once, or it is found by a retry. *)

Lemma harvest_shape el fs i sfc w :
  let s := harvest DS el fs i sfc w in
  exists m,
    (sig s = StopIteration /\ after s = Returned (i + m) (sfc + m) /\
     10 <= sfc + m /\ (sfc <= 10 -> sfc + m = 10) /\
     probes (log s) = exhausted i m /\ yields (log s) = [] /\
     scroll_cycles (log s) = m)
    \/
    (exists p,
       sig s = Yielded p /\ after s = AtYield el fs (i + m) (sfc + m) /\
       sfc + m < 10 /\
       probes (log s) = exhausted i m ++ [(i + m, true)] /\
       yields (log s) = [(i + m, p)] /\ scroll_cycles (log s) = m)
    \/
    (exists p j,
       sig s = Yielded p /\
       after s = AtRetryYield el fs (i + m) (sfc + m + 1) j /\
       sfc + m < 10 /\ j < 10 /\
       probes (log s) =
         exhausted i m ++ repeat (i + m, false) (S j) ++ [(i + m, true)] /\
       yields (log s) = [(i + m, p)] /\ scroll_cycles (log s) = m + 1).
Proof.
  remember (10 - sfc) as k eqn:Hk. revert i sfc w Hk.
  induction k as [| k IH]; intros i sfc w Hk; cbv zeta.
  - rewrite harvest_done by lia. exists 0. left; simpl.
    rewrite !Nat.add_0_r. repeat split; lia.
  - rewrite harvest_step by lia.
    destruct (probe DS el i fs w) as [[e | p] w1].
    + cbv zeta.
      pose proof (load_retry_shape el fs i 0
                    (sleep DS SCROLL_PAUSE (snd (scroll_to_bottom DS w1)))
                    (Nat.le_0_l 10)) as Hin.
      destruct (load_retry DS el fs i 0 _) as [tr' p j w4 | tr' j w4];
        destruct Hin as (H1 & H2 & H3 & H4 & H5);
        assert (Hsc : scroll_cycles tr' = 0)
          by (unfold scroll_cycles; now rewrite H4).
      * exists 0. right; right. exists p, j. cbn [log sig after].
        rewrite probes_app, yields_app, scroll_cycles_app.
        rewrite H2, H3, Hsc.
        rewrite Nat.sub_0_r, !Nat.add_0_r. simpl.
        repeat split; lia.
      * destruct (IH (i + 1) (sfc + 1) w4 ltac:(lia)) as [m' Hrec].
        cbv zeta in Hrec.
        set (rest := harvest DS el fs (i + 1) (sfc + 1) w4) in *.
        exists (S m'). cbn [log sig after and_then].
        rewrite !probes_app, !yields_app, !scroll_cycles_app.
        rewrite H2, H3, Hsc.
        rewrite exhausted_S.
        replace (i + S m') with (i + 1 + m') by lia.
        replace (sfc + S m') with (sfc + 1 + m') by lia.
        replace (S i) with (i + 1) by lia.
        destruct Hrec as [Ha | [(q & Hb) | (q & j' & Hc)]].
        -- left. destruct Ha as (A1 & A2 & A3 & A4 & A5 & A6 & A7).
           rewrite A1, A2, A5, A6, A7. simpl.
           repeat split; first [lia | reflexivity].
        -- right; left. exists q.
           destruct Hb as (A1 & A2 & A3 & A5 & A6 & A7).
           rewrite A1, A2, A5, A6, A7. simpl.
           repeat split; first [lia | reflexivity].
        -- right; right. exists q, j'.
           destruct Hc as (A1 & A2 & A3 & A4 & A5 & A6 & A7).
           rewrite A1, A2, A5, A6, A7. simpl.
           repeat split; first [lia | reflexivity].
    + exists 0. right; left. exists p. simpl.
      rewrite !Nat.add_0_r. repeat split; lia.
Qed.

(** *** The log records what the session answered *)

Lemma faithful_app tr tr' :
  faithful DS (tr ++ tr') <-> faithful DS tr /\ faithful DS tr'.
Proof. unfold faithful. rewrite probes_app. apply Forall_app. Qed.

Lemma answers_probe el fs i w :
  answers DS i (found (probe DS el i fs w)).
Proof. now exists el, fs, w. Qed.

Lemma load_retry_faithful el fs i lfc w :
  faithful DS (retried_log (load_retry DS el fs i lfc w)).
Proof.
  remember (10 - lfc) as k eqn:Hk. revert lfc w Hk.
  induction k as [| k IH]; intros lfc w Hk.
  - rewrite load_retry_done by lia. constructor.
  - rewrite load_retry_step by lia.
    pose proof (answers_probe el fs i w) as Ha. unfold found in Ha.
    destruct (probe DS el i fs w) as [[e | p] w1]; simpl in Ha.
    + specialize (IH (lfc + 1) (sleep DS 0.5%Q w1) ltac:(lia)).
      destruct (load_retry DS el fs i (lfc + 1) _); simpl in *;
        constructor; assumption.
    + repeat constructor. assumption.
Qed.

Lemma harvest_faithful el fs i sfc w :
  faithful DS (log (harvest DS el fs i sfc w)).
Proof.
  remember (10 - sfc) as k eqn:Hk. revert i sfc w Hk.
  induction k as [| k IH]; intros i sfc w Hk.
  - rewrite harvest_done by lia. constructor.
  - rewrite harvest_step by lia.
    pose proof (answers_probe el fs i w) as Ha. unfold found in Ha.
    destruct (probe DS el i fs w) as [[e | p] w1]; simpl in Ha.
    + cbv zeta.
      pose proof (load_retry_faithful el fs i 0
                    (sleep DS SCROLL_PAUSE (snd (scroll_to_bottom DS w1))))
        as Hin.
      destruct (load_retry DS el fs i 0 _) as [tr' p j w4 | tr' j w4];
        simpl in Hin; cbn [log and_then].
      * apply faithful_app. split; [| assumption].
        repeat constructor. assumption.
      * rewrite !faithful_app. repeat split; [| assumption |].
        -- repeat constructor. assumption.
        -- apply IH. lia.
    + repeat constructor. assumption.
Qed.

(** *** The first call of [next] *)

Lemma next_created_found fo w el w1 :
  find_feed_el DS (snd (scroll_to_top DS w)) = (inr el, w1) ->
  next DS (Created fo) w =
  and_then [Scroll (Offset 1); FindFeed true]
    (harvest DS el (fields_or_all DS fo) 1 0 w1).
Proof.
  unfold next, scroll_to_top. simpl. intros ->. reflexivity.
Qed.

Lemma next_created_missing fo w e w1 :
  find_feed_el DS (snd (scroll_to_top DS w)) = (inl e, w1) ->
  next DS (Created fo) w =
  {| log := [Scroll (Offset 1); FindFeed false;
             LogError "Could not find feed element!"; Print e];
     sig := SystemExit 1; after := Exited 1; now := w1 |}.
Proof.
  unfold next, scroll_to_top. simpl. intros ->. reflexivity.
Qed.

Lemma next_faithful fr w : faithful DS (log (next DS fr w)).
Proof.
  destruct fr as [fo | el fs i sfc | el fs i sfc lfc | i sfc | c].
  - unfold next, scroll_to_top.
    destruct (find_feed_el DS _) as [[e | el] w1]; cbn [log and_then].
    + constructor.
    + apply faithful_app. split; [constructor | apply harvest_faithful].
  - apply harvest_faithful.
  - apply harvest_faithful.
  - constructor.
  - constructor.
Qed.

(** *** Two special courses of the outer loop *)

Lemma harvest_found el fs i sfc w :
  sfc < 10 -> found (probe DS el i fs w) = true ->
  exists p w1,
    harvest DS el fs i sfc w =
    {| log := [Probe i true; Yield i p]; sig := Yielded p;
       after := AtYield el fs i sfc; now := w1 |}.
Proof.
  intros Hlt Hf. rewrite harvest_step by assumption. unfold found in Hf.
  destruct (probe DS el i fs w) as [[e | p] w1]; [discriminate |].
  now exists p, w1.
Qed.

Lemma harvest_all_fail el fs i sfc w :
  sfc <= 10 -> (forall p, i <= p -> ~ answers DS p true) ->
  let s := harvest DS el fs i sfc w in
  sig s = StopIteration /\ after s = Returned (i + (10 - sfc)) 10 /\
  probes (log s) = exhausted i (10 - sfc) /\ yields (log s) = [] /\
  scroll_cycles (log s) = 10 - sfc.
Proof.
  intros Hle Hnone s.
  pose proof (harvest_faithful el fs i sfc w) as Hf. fold s in Hf.
  unfold faithful in Hf. rewrite Forall_forall in Hf.
  destruct (harvest_shape el fs i sfc w) as [m Hs]. fold s in Hs.
  destruct Hs as [Ha | [(q & Hb) | (q & j & Hc)]].
  - destruct Ha as (A1 & A2 & A3 & A4 & A5 & A6 & A7).
    specialize (A4 Hle). assert (Hm : m = 10 - sfc) by lia.
    rewrite Hm in A2, A5, A7.
    replace (sfc + (10 - sfc)) with 10 in A2 by lia.
    repeat split; assumption.
  - destruct Hb as (A1 & A2 & A3 & A5 & A6 & A7). exfalso.
    apply (Hnone (i + m)); [lia |].
    apply (Hf (i + m, true)). rewrite A5, in_app_iff. right. now left.
  - destruct Hc as (A1 & A2 & A3 & A4 & A5 & A6 & A7). exfalso.
    apply (Hnone (i + m)); [lia |].
    apply (Hf (i + m, true)). rewrite A5, !in_app_iff. right. right.
    now left.
Qed.

(** *** The consumer *)

Lemma consume_S n fr w :
  consume DS (S n) fr w =
  let s := next DS fr w in
  match sig s with
  | Yielded _ =>
      let '(tr, fr', w') := consume DS n (after s) (now s) in
      (log s ++ tr, fr', w')
  | _ => (log s, after s, now s)
  end.
Proof. reflexivity. Qed.

Lemma next_at_yield el fs i sfc w :
  next DS (AtYield el fs i sfc) w = harvest DS el fs (i + 1) sfc w.
Proof. reflexivity. Qed.

Lemma next_at_retry_yield el fs i sfc lfc w :
  next DS (AtRetryYield el fs i sfc lfc) w = harvest DS el fs (i + 1) 0 w.
Proof. reflexivity. Qed.

(** ** C1: a feed that never shows an item *)

(** C1.  If every probe fails, the first call of [next] already ends the
    sequence: it yields nothing, and it returns after exactly ten scroll
    cycles, one per position 1..10, each position probed eleven times. *)
Theorem browse_never_found_exhausts fo w el w1 :
  (forall el' i fs w', 1 <= i -> found (probe DS el' i fs w') = false) ->
  find_feed_el DS (snd (scroll_to_top DS w)) = (inr el, w1) ->
  let s := next DS (browse fo) w in
  sig s = StopIteration /\ yields (log s) = [] /\
  scroll_cycles (log s) = 10 /\ probes (log s) = exhausted 1 10 /\
  after s = Returned 11 10.
Proof.
  intros Hfail Hfeed s. subst s. unfold browse.
  rewrite (next_created_found fo w el w1 Hfeed).
  destruct (harvest_all_fail el (fields_or_all DS fo) 1 0 w1)
    as (A1 & A2 & A3 & A4 & A5); [lia | |].
  - intros p Hp (el' & fs & w' & Hans).
    rewrite Hfail in Hans by assumption. discriminate.
  - cbn [sig log after and_then].
    rewrite yields_app, scroll_cycles_app, probes_app, A1, A2, A3, A4, A5.
    repeat split; reflexivity.
Qed.

(** ** C7: no feed element *)

(** C7.  When the feed element is not found, the first call of [next]
    raises [SystemExit(1)] right after the lookup: the error message and the
    exception are written out, no position is probed and nothing is
    yielded, and the generator is finished. *)
Theorem browse_aborts_without_feed fo w e w1 :
  find_feed_el DS (snd (scroll_to_top DS w)) = (inl e, w1) ->
  let s := next DS (browse fo) w in
  sig s = SystemExit 1 /\
  log s = [Scroll (Offset 1); FindFeed false;
           LogError "Could not find feed element!"; Print e] /\
  probes (log s) = [] /\ yields (log s) = [] /\
  (forall n, consume DS (S n) (browse fo) w = (log s, Exited 1, w1)) /\
  sig (next DS (after s) (now s)) = StopIteration /\
  log (next DS (after s) (now s)) = [].
Proof.
  intros Hfeed s. subst s. unfold browse.
  repeat split; try (intros n; rewrite consume_S);
    rewrite (next_created_missing fo w e w1 Hfeed); reflexivity.
Qed.

(** ** C6: three items, then nothing *)

(** C6.  On a feed whose positions 1..3 are always found and whose later
    positions never are, a consumer that keeps calling [next] gets exactly
    three posts, those of positions 1, 2 and 3, and then the normal end of
    the sequence, reached after ten scroll cycles. *)
Theorem three_items_then_exhausted fo w el w1 n :
  (forall el' i fs w', 1 <= i <= 3 -> found (probe DS el' i fs w') = true) ->
  (forall el' i fs w', 3 < i -> found (probe DS el' i fs w') = false) ->
  find_feed_el DS (snd (scroll_to_top DS w)) = (inr el, w1) ->
  4 <= n ->
  let '(tr, fr, _) := consume DS n (browse fo) w in
  positions_yielded tr = [1; 2; 3] /\ List.length (yields tr) = 3 /\
  fr = Returned 14 10 /\ scroll_cycles tr = 10.
Proof.
  intros Hyes Hno Hfeed Hn. unfold browse.
  destruct n as [| [| [| [| n]]]]; try lia. clear Hn.
  set (fs := fields_or_all DS fo).
  rewrite consume_S, (next_created_found fo w el w1 Hfeed). fold fs.
  destruct (harvest_found el fs 1 0 w1) as (p1 & w2 & E1);
    [lia | apply Hyes; lia |].
  rewrite E1. cbn [sig log after now and_then].
  rewrite consume_S, next_at_yield.
  destruct (harvest_found el fs (1 + 1) 0 w2) as (p2 & w3 & E2);
    [lia | apply Hyes; lia |].
  rewrite E2. cbn [sig log after now and_then].
  rewrite consume_S, next_at_yield.
  destruct (harvest_found el fs (1 + 1 + 1) 0 w3) as (p3 & w4 & E3);
    [lia | apply Hyes; lia |].
  rewrite E3. cbn [sig log after now and_then].
  rewrite consume_S, next_at_yield.
  destruct (harvest_all_fail el fs (1 + 1 + 1 + 1) 0 w4)
    as (A1 & A2 & A3 & A4 & A5); [lia | |].
  { intros p Hp (el' & fs' & w' & Hans).
    rewrite Hno in Hans by (simpl in Hp; lia). discriminate. }
  cbv zeta. rewrite A1. cbv beta iota. rewrite A2. unfold positions_yielded.
  rewrite !yields_app, !scroll_cycles_app, A4, A5.
  repeat split; reflexivity.
Qed.

(** ** C2: the position counter *)

Lemma positions_probed_app tr tr' :
  positions_probed (tr ++ tr') = positions_probed tr ++ positions_probed tr'.
Proof. unfold positions_probed. now rewrite probes_app, map_app. Qed.

Lemma attempts_from_app i ks ks' :
  attempts_from i (ks ++ ks') =
  attempts_from i ks ++ attempts_from (i + List.length ks) ks'.
Proof.
  revert i. induction ks as [| k ks IH]; intros i; simpl.
  - now rewrite Nat.add_0_r.
  - rewrite IH, <- app_assoc. do 3 f_equal. lia.
Qed.

Lemma map_fst_repeat (i : nat) (b : bool) k :
  map fst (repeat (i, b) k) = repeat i k.
Proof. induction k; simpl; congruence. Qed.

Lemma map_fst_exhausted i m :
  map fst (exhausted i m) = attempts_from i (repeat 11 m).
Proof.
  revert i. induction m as [| m IH]; intros i; [reflexivity |].
  rewrite exhausted_S, map_app, IH, map_fst_repeat.
  cbn [repeat attempts_from]. now rewrite Nat.add_1_r.
Qed.

Lemma Forall_repeat_eleven m : Forall (fun k => 1 <= k <= 11) (repeat 11 m).
Proof.
  apply Forall_forall. intros k Hk. apply repeat_spec in Hk. lia.
Qed.

Lemma harvest_attempts el fs i sfc w :
  let s := harvest DS el fs i sfc w in
  exists ks,
    positions_probed (log s) = attempts_from i ks /\
    Forall (fun k => 1 <= k <= 11) ks /\
    next_position (control_of (after s)) = i + List.length ks.
Proof.
  intros s. destruct (harvest_shape el fs i sfc w) as [m Hs]. fold s in Hs.
  unfold positions_probed.
  destruct Hs as [Ha | [(q & Hb) | (q & j & Hc)]].
  - destruct Ha as (A1 & A2 & A3 & A4 & A5 & A6 & A7).
    exists (repeat 11 m). rewrite A2, A5, map_fst_exhausted, repeat_length.
    split; [reflexivity |]. split; [apply Forall_repeat_eleven | reflexivity].
  - destruct Hb as (A1 & A2 & A3 & A5 & A6 & A7).
    exists (repeat 11 m ++ [1]).
    rewrite A2, A5, map_app, map_fst_exhausted, attempts_from_app.
    rewrite length_app, repeat_length. simpl.
    split; [reflexivity |]. split; [| lia].
    apply Forall_app. split; [apply Forall_repeat_eleven |].
    constructor; [lia | constructor].
  - destruct Hc as (A1 & A2 & A3 & A4 & A5 & A6 & A7).
    exists (repeat 11 m ++ [S j + 1]).
    rewrite A2, A5, !map_app, map_fst_exhausted, map_fst_repeat.
    rewrite attempts_from_app, length_app, repeat_length.
    cbn [attempts_from List.length map fst control_of next_position].
    rewrite repeat_app, app_nil_r.
    split; [reflexivity |]. split; [| lia].
    apply Forall_app. split; [apply Forall_repeat_eleven |].
    constructor; [lia | constructor].
Qed.

Lemma next_attempts fr w :
  let s := next DS fr w in
  exists ks,
    positions_probed (log s) = attempts_from (next_position (control_of fr)) ks /\
    Forall (fun k => 1 <= k <= 11) ks /\
    next_position (control_of (after s)) =
      next_position (control_of fr) + List.length ks.
Proof.
  destruct fr as [fo | el fs i sfc | el fs i sfc lfc | i sfc | c]; cbv zeta.
  - unfold next, scroll_to_top.
    destruct (find_feed_el DS _) as [[e | el] w1].
    + exists []. repeat split; constructor.
    + destruct (harvest_attempts el (fields_or_all DS fo) 1 0 w1)
        as (ks & H1 & H2 & H3).
      exists ks. cbn [log after and_then].
      rewrite positions_probed_app. repeat split; assumption.
  - apply harvest_attempts.
  - apply harvest_attempts.
  - exists []. simpl. repeat split; [constructor | lia].
  - exists []. repeat split; constructor.
Qed.

(** C2.  Whatever the session answers and however far the consumer goes,
    the probes of a harvest fall into attempts at consecutive positions: the
    first at the generator's next position (1 for a new generator), each
    later one exactly one position further, whether it found its item or used
    up its retries; an attempt makes between one and eleven probes, and the
    counter ends up advanced by the number of attempts. *)
Theorem position_advances_by_one_per_attempt n fr w :
  let '(tr, fr', _) := consume DS n fr w in
  exists ks,
    positions_probed tr = attempts_from (next_position (control_of fr)) ks /\
    Forall (fun k => 1 <= k <= 11) ks /\
    next_position (control_of fr') =
      next_position (control_of fr) + List.length ks.
Proof.
  revert fr w. induction n as [| n IH]; intros fr w.
  - exists []. simpl. repeat split; [constructor | lia].
  - rewrite consume_S. cbv zeta.
    destruct (next_attempts fr w) as (ks & H1 & H2 & H3).
    destruct (sig (next DS fr w)); try (exists ks; repeat split; assumption).
    specialize (IH (after (next DS fr w)) (now (next DS fr w))).
    destruct (consume DS n _ _) as [[tr fr'] w'].
    destruct IH as (ks' & I1 & I2 & I3).
    exists (ks ++ ks').
    rewrite positions_probed_app, attempts_from_app, H1, I1, I3, H3, length_app.
    repeat split; [apply Forall_app; split; assumption | lia].
Qed.

(** ** C5: the emitted positions *)

Lemma positions_found_app tr tr' :
  positions_found (tr ++ tr') = positions_found tr ++ positions_found tr'.
Proof.
  unfold positions_found. now rewrite probes_app, filter_app, map_app.
Qed.

Lemma positions_yielded_app tr tr' :
  positions_yielded (tr ++ tr') = positions_yielded tr ++ positions_yielded tr'.
Proof. unfold positions_yielded. now rewrite yields_app, map_app. Qed.

Lemma filter_snd_repeat_false i k :
  filter snd (repeat (i, false) k) = @nil (nat * bool).
Proof. induction k; simpl; auto. Qed.

Lemma filter_snd_exhausted i m : filter snd (exhausted i m) = [].
Proof.
  revert i. induction m as [| m IH]; intros i; [reflexivity |].
  now rewrite exhausted_S, filter_app, IH, filter_snd_repeat_false.
Qed.

Lemma increasing_within_nil a b : a <= b -> increasing_within a b [].
Proof. intros H. repeat split; [constructor | constructor | assumption]. Qed.

Lemma increasing_within_one a b p :
  a <= p < b -> increasing_within a b [p].
Proof.
  intros H. repeat split; try lia; repeat constructor; lia.
Qed.

Lemma increasing_within_app a b c l l' :
  increasing_within a b l -> increasing_within b c l' ->
  increasing_within a c (l ++ l').
Proof.
  intros (S1 & F1 & L1) (S2 & F2 & L2). repeat split; [| | lia].
  - induction l as [| x l IH]; [assumption |].
    inversion S1; inversion F1; subst. simpl. constructor; [auto |].
    apply Forall_app. split; [assumption |].
    revert F2. apply Forall_impl. intros y Hy. lia.
  - apply Forall_app. split.
    + revert F1. apply Forall_impl. intros y Hy. lia.
    + revert F2. apply Forall_impl. intros y Hy. lia.
Qed.

Lemma harvest_emits el fs i sfc w :
  let s := harvest DS el fs i sfc w in
  positions_yielded (log s) = positions_found (log s) /\
  increasing_within i (next_position (control_of (after s)))
    (positions_found (log s)).
Proof.
  intros s. destruct (harvest_shape el fs i sfc w) as [m Hs]. fold s in Hs.
  unfold positions_yielded, positions_found.
  destruct Hs as [Ha | [(q & Hb) | (q & j & Hc)]].
  - destruct Ha as (A1 & A2 & A3 & A4 & A5 & A6 & A7).
    rewrite A2, A5, A6, filter_snd_exhausted. split; [reflexivity |].
    apply increasing_within_nil. simpl. lia.
  - destruct Hb as (A1 & A2 & A3 & A5 & A6 & A7).
    rewrite A2, A5, A6, filter_app, filter_snd_exhausted.
    split; [reflexivity |]. apply increasing_within_one. simpl. lia.
  - destruct Hc as (A1 & A2 & A3 & A4 & A5 & A6 & A7).
    rewrite A2, A5, A6, !filter_app, filter_snd_exhausted,
      filter_snd_repeat_false.
    split; [reflexivity |]. apply increasing_within_one. simpl. lia.
Qed.

Lemma next_emits fr w :
  let s := next DS fr w in
  positions_yielded (log s) = positions_found (log s) /\
  increasing_within (next_position (control_of fr))
    (next_position (control_of (after s))) (positions_found (log s)).
Proof.
  destruct fr as [fo | el fs i sfc | el fs i sfc lfc | i sfc | c]; cbv zeta.
  - unfold next, scroll_to_top.
    destruct (find_feed_el DS _) as [[e | el] w1].
    + split; [reflexivity | now apply increasing_within_nil].
    + cbn [log after and_then].
      rewrite positions_yielded_app, positions_found_app.
      apply (harvest_emits el (fields_or_all DS fo) 1 0 w1).
  - apply harvest_emits.
  - apply harvest_emits.
  - split; [reflexivity | now apply increasing_within_nil].
  - split; [reflexivity | now apply increasing_within_nil].
Qed.

Lemma consume_emits n fr w :
  let '(tr, fr', _) := consume DS n fr w in
  positions_yielded tr = positions_found tr /\
  increasing_within (next_position (control_of fr))
    (next_position (control_of fr')) (positions_found tr).
Proof.
  revert fr w. induction n as [| n IH]; intros fr w.
  - split; [reflexivity | now apply increasing_within_nil].
  - rewrite consume_S. cbv zeta.
    destruct (next_emits fr w) as (H1 & H2).
    destruct (sig (next DS fr w)); try (split; assumption).
    specialize (IH (after (next DS fr w)) (now (next DS fr w))).
    destruct (consume DS n _ _) as [[tr fr'] w'].
    destruct IH as (I1 & I2).
    rewrite positions_yielded_app, positions_found_app, H1, I1.
    split; [reflexivity |]. eapply increasing_within_app; eassumption.
Qed.

Lemma increasing_exact (l : list nat) : forall a N,
  StronglySorted lt l -> (forall p, In p l <-> a <= p < a + N) ->
  l = seq a N.
Proof.
  induction l as [| x l IH]; intros a N Hs Hin.
  - destruct N as [| N]; [reflexivity |].
    exfalso. apply (proj2 (Hin a)). lia.
  - inversion Hs as [| ? ? Hs' Hall]; subst.
    rewrite Forall_forall in Hall.
    destruct N as [| N].
    { exfalso. pose proof (proj1 (Hin x) (or_introl eq_refl)). lia. }
    assert (Hx : x = a).
    { pose proof (proj1 (Hin x) (or_introl eq_refl)) as Hxa.
      destruct (proj2 (Hin a) ltac:(lia)) as [-> | Hal]; [reflexivity |].
      apply Hall in Hal. lia. }
    subst x. simpl. f_equal. apply IH; [assumption |].
    intros p. split.
    + intros Hp. pose proof (Hall p Hp).
      pose proof (proj1 (Hin p) (or_intror Hp)). lia.
    + intros Hp. destruct (proj2 (Hin p) ltac:(lia)) as [-> | Hpl];
        [lia | assumption].
Qed.

(** C5.  In a harvest whose successful probes are exactly those of the
    positions 1..N, the consumer receives exactly N posts: those of the
    positions 1, 2, ..., N in this order, each once. *)
Theorem emitted_positions_are_one_to_N n fo w N :
  let tr := fst (fst (consume DS n (browse fo) w)) in
  (forall p, In p (positions_found tr) <-> 1 <= p <= N) ->
  positions_yielded tr = seq 1 N /\ List.length (yields tr) = N /\
  StronglySorted lt (positions_yielded tr).
Proof.
  intros tr Hfound. subst tr. unfold browse in *.
  pose proof (consume_emits n (Created fo) w) as Hc.
  destruct (consume DS n (Created fo) w) as [[tr fr'] w']. simpl in *.
  destruct Hc as (E & Hs & _ & _).
  assert (Hseq : positions_yielded tr = seq 1 N).
  { rewrite E. apply increasing_exact; [assumption |].
    intros p. rewrite Hfound. lia. }
  split; [assumption |]. split.
  - unfold positions_yielded in Hseq.
    rewrite <- (length_map fst), Hseq. apply length_seq.
  - now rewrite E.
Qed.

(** ** C3: retries used up inside one scroll cycle *)

Lemma harvest_first_probe el fs i sfc w :
  sfc < 10 ->
  hd_error (probes (log (harvest DS el fs i sfc w))) =
  Some (i, found (probe DS el i fs w)).
Proof.
  intros Hlt. rewrite harvest_step by assumption. unfold found.
  destruct (probe DS el i fs w) as [[e | p] w1]; [| reflexivity].
  cbv zeta. destruct (load_retry DS el fs i 0 _); reflexivity.
Qed.

Lemma harvest_returned el fs i sfc w i' sfc' :
  sfc <= 10 -> after (harvest DS el fs i sfc w) = Returned i' sfc' ->
  sfc' = 10.
Proof.
  intros Hle Hafter. destruct (harvest_shape el fs i sfc w) as [m Hs].
  cbv zeta in Hs. rewrite Hafter in Hs.
  destruct Hs as [Ha | [(q & Hb) | (q & j & Hc)]].
  - destruct Ha as (_ & A2 & _ & A4 & _). injection A2 as -> ->. auto.
  - destruct Hb as (_ & A2 & _). discriminate.
  - destruct Hc as (_ & A2 & _). discriminate.
Qed.

(** C3.  Take an attempt at position [i], with [scroll_fail_count] below
    ten, whose first probe fails and whose retry loop falls through.  Then the
    loop made ten failed probes, half a second apart; the generator has not
    ended but stands at the [while] test for position [i + 1], with the
    scroll-fail count one higher.  Unless that count has reached ten it probes
    position [i + 1], and scrolls again if this probe fails too.  The sequence
    ends there exactly when the count is ten, and in no other way. *)
Theorem exhausted_retries_move_on el fs i sfc w e w1 tr lfc w4 :
  sfc < 10 ->
  probe DS el i fs w = (inl e, w1) ->
  load_retry DS el fs i 0
    (sleep DS SCROLL_PAUSE (snd (scroll_to_bottom DS w1))) = GaveUp tr lfc w4 ->
  let s := harvest DS el fs i sfc w in
  let rest := harvest DS el fs (i + 1) (sfc + 1) w4 in
  (probes tr = repeat (i, false) 10 /\ sleeps tr = repeat 0.5%Q 10 /\
   lfc = 10) /\
  (exists pre,
     s = and_then pre rest /\ scroll_cycles pre = 1 /\ yields pre = []) /\
  (sfc + 1 < 10 ->
   hd_error (probes (log rest)) =
     Some (i + 1, found (probe DS el (i + 1) fs w4)) /\
   (found (probe DS el (i + 1) fs w4) = false ->
    1 <= scroll_cycles (log rest))) /\
  (sfc + 1 = 10 ->
   rest = {| log := []; sig := StopIteration; after := Returned (i + 1) 10;
             now := w4 |}) /\
  (forall i' sfc', after s = Returned i' sfc' -> sfc' = 10).
Proof.
  intros Hlt Hprobe Hgave s rest.
  pose proof (load_retry_shape el fs i 0
                (sleep DS SCROLL_PAUSE (snd (scroll_to_bottom DS w1)))
                (Nat.le_0_l 10)) as Hin.
  rewrite Hgave in Hin. destruct Hin as (H1 & H2 & H3 & H4 & H5).
  split; [auto |]. split; [| split; [| split]].
  - exists ([Probe i false; Warn (ScrollFailCount post_count (sfc + 1));
             Warn (ExnText e); Scroll BodyScrollHeight; Sleep SCROLL_PAUSE;
             Sleep SCROLL_PAUSE] ++ tr).
    subst s rest. rewrite (harvest_step el fs i sfc w Hlt), Hprobe.
    cbv zeta. rewrite Hgave. split; [reflexivity |].
    rewrite scroll_cycles_app, yields_app, H3.
    unfold scroll_cycles at 2. rewrite H4. split; reflexivity.
  - intros Hlt'. subst rest. split.
    + now apply harvest_first_probe.
    + intros Hnot. rewrite harvest_step by assumption. unfold found in Hnot.
      destruct (probe DS el (i + 1) fs w4) as [[e' | p] w5]; [| discriminate].
      cbv zeta. destruct (load_retry DS el fs (i + 1) 0 _);
        cbn [log and_then]; rewrite !scroll_cycles_app; simpl; lia.
  - intros Hten. subst rest. rewrite harvest_done by lia.
    now rewrite Hten.
  - intros i' sfc'. apply harvest_returned. lia.
Qed.

(** ** C4: an item found by a retry *)

Lemma harvest_retry_yield el0 fs0 i0 sfc0 w el fs i sfc lfc :
  let s := harvest DS el0 fs0 i0 sfc0 w in
  after s = AtRetryYield el fs i sfc lfc ->
  el = el0 /\ fs = fs0 /\ lfc < 10 /\
  exists p pre,
    sig s = Yielded p /\ yields (log s) = [(i, p)] /\
    probes (log s) = pre ++ repeat (i, false) (S lfc) ++ [(i, true)].
Proof.
  intros s Hafter. destruct (harvest_shape el0 fs0 i0 sfc0 w) as [m Hs].
  fold s in Hs. rewrite Hafter in Hs.
  destruct Hs as [Ha | [(q & Hb) | (q & j & Hc)]].
  - destruct Ha as (_ & A2 & _). discriminate.
  - destruct Hb as (_ & A2 & _). discriminate.
  - destruct Hc as (A1 & A2 & A3 & A4 & A5 & A6 & A7).
    injection A2 as -> -> -> -> ->. repeat split; [assumption |].
    exists q, (exhausted i0 m). auto.
Qed.

(** C4.  When a call of [next] ends at the [yield] of the retry loop, it has
    yielded the post of its position [i], found after the first probe and
    [load_fail_count] retries had failed.  The following call starts the
    outer loop over at position [i + 1] with [scroll_fail_count = 0],
    whatever the two counters were: it probes [i + 1] first, and if that probe
    fails the warning reports a scroll fail count of 1 and the retry loop runs
    again from [load_fail_count = 0]. *)
Theorem found_on_retry_resets fr w el fs i sfc lfc :
  let s := next DS fr w in
  after s = AtRetryYield el fs i sfc lfc ->
  let s' := next DS (after s) (now s) in
  (lfc < 10 /\
   exists p pre,
     sig s = Yielded p /\ yields (log s) = [(i, p)] /\
     probes (log s) = pre ++ repeat (i, false) (S lfc) ++ [(i, true)]) /\
  s' = harvest DS el fs (i + 1) 0 (now s) /\
  hd_error (probes (log s')) =
    Some (i + 1, found (probe DS el (i + 1) fs (now s))) /\
  (forall e w1,
     probe DS el (i + 1) fs (now s) = (inl e, w1) ->
     hd_error (warnings (log s')) = Some (ScrollFailCount post_count 1) /\
     exists tl,
       log s' =
       [Probe (i + 1) false; Warn (ScrollFailCount post_count 1);
        Warn (ExnText e); Scroll BodyScrollHeight; Sleep SCROLL_PAUSE;
        Sleep SCROLL_PAUSE]
       ++ retried_log
            (load_retry DS el fs (i + 1) 0
               (sleep DS SCROLL_PAUSE (snd (scroll_to_bottom DS w1))))
       ++ tl).
Proof.
  intros s Hafter s'. subst s'. rewrite Hafter, next_at_retry_yield.
  split; [| split; [reflexivity | split]].
  - subst s.
    destruct fr as [fo | el0 fs0 i0 sfc0 | el0 fs0 i0 sfc0 lfc0 | i0 sfc0 | c];
      try discriminate.
    + revert Hafter. unfold next, scroll_to_top.
      destruct (find_feed_el DS _) as [[e | el0] w1]; [discriminate |].
      cbn [log sig after and_then]. intros Hafter.
      apply harvest_retry_yield in Hafter.
      destruct Hafter as (_ & _ & Hl & p & pre & A1 & A2 & A3).
      split; [assumption |]. exists p, pre.
      rewrite yields_app, probes_app, A2, A3. auto.
    + rewrite next_at_yield in *. apply harvest_retry_yield in Hafter.
      destruct Hafter as (_ & _ & Hl & Hex). auto.
    + rewrite next_at_retry_yield in *. apply harvest_retry_yield in Hafter.
      destruct Hafter as (_ & _ & Hl & Hex). auto.
  - apply harvest_first_probe. lia.
  - intros e w1 Hprobe. rewrite harvest_step by lia. rewrite Hprobe.
    cbv zeta.
    destruct (load_retry DS el fs (i + 1) 0 _) as [tr' p j w4 | tr' j w4].
    + split; [reflexivity |].
      exists []. cbn [log retried_log]. now rewrite app_nil_r.
    + split; [reflexivity |].
      exists (log (harvest DS el fs (i + 1 + 1) (0 + 1) w4)).
      cbn [log and_then retried_log]. now rewrite <- app_assoc.
Qed.

(** ** C8: browsing twice *)

Lemma consume_head n fo w :
  hd_error (fst (fst (consume DS (S n) (Created fo) w))) =
  Some (Scroll (Offset 1)).
Proof.
  rewrite consume_S. cbv zeta.
  destruct (find_feed_el DS (snd (scroll_to_top DS w))) as [[e | el] w1] eqn:Hf.
  - rewrite (next_created_missing fo w e w1 Hf). reflexivity.
  - rewrite (next_created_found fo w el w1 Hf).
    cbn [sig log after now and_then].
    destruct (sig (harvest DS el (fields_or_all DS fo) 1 0 w1));
      try reflexivity.
    destruct (consume DS n _ _) as [[tr fr'] w']. reflexivity.
Qed.

Lemma consume_first_probe n fo w el w1 :
  find_feed_el DS (snd (scroll_to_top DS w)) = (inr el, w1) ->
  hd_error (probes (fst (fst (consume DS (S n) (Created fo) w)))) =
  Some (1, found (probe DS el 1 (fields_or_all DS fo) w1)).
Proof.
  intros Hfeed. rewrite consume_S. cbv zeta.
  rewrite (next_created_found fo w el w1 Hfeed).
  pose proof (harvest_first_probe el (fields_or_all DS fo) 1 0 w1
                ltac:(lia)) as Hhd.
  cbn [sig log after now and_then].
  destruct (probes (log (harvest DS el (fields_or_all DS fo) 1 0 w1)))
    as [| x l] eqn:E; [discriminate |].
  destruct (sig (harvest DS el (fields_or_all DS fo) 1 0 w1));
    cbn [fst]; try (rewrite probes_app, E; exact Hhd).
  destruct (consume DS n _ _) as [[tr fr'] w']. cbn [fst].
  rewrite !probes_app, E. exact Hhd.
Qed.

(** C8.  A second generator created on the session a first one was run on
    (as far as the consumer liked) does not resume it: its first call of
    [next] scrolls to the top before anything else, its first probe is of
    position 1, and the posts it yields are those of increasing positions
    from 1 on again.  The first generator keeps its own position:
    resumed afterwards, it goes on where it stood. *)
Theorem browse_again_starts_over n1 n2 fo1 fo2 w :
  let '(tr1, fr1, w1) := consume DS n1 (browse fo1) w in
  let '(tr2, fr2, w2) := consume DS (S n2) (browse fo2) w1 in
  hd_error tr2 = Some (Scroll (Offset 1)) /\
  (forall el w', find_feed_el DS (snd (scroll_to_top DS w1)) = (inr el, w') ->
   hd_error (probes tr2) =
     Some (1, found (probe DS el 1 (fields_or_all DS fo2) w'))) /\
  increasing_within 1 (next_position (control_of fr2))
    (positions_yielded tr2) /\
  (exists ks,
     positions_probed (log (next DS fr1 w2)) =
       attempts_from (next_position (control_of fr1)) ks).
Proof.
  unfold browse.
  destruct (consume DS n1 (Created fo1) w) as [[tr1 fr1] w1].
  pose proof (consume_head n2 fo2 w1) as Hhead.
  pose proof (consume_first_probe n2 fo2 w1) as Hfirst.
  pose proof (consume_emits (S n2) (Created fo2) w1) as Hem.
  destruct (consume DS (S n2) (Created fo2) w1) as [[tr2 fr2] w2].
  cbn [fst] in *. split; [assumption |]. split; [assumption |].
  destruct Hem as (E1 & E2). split; [now rewrite E1 |].
  destruct (next_attempts fr1 w2) as (ks' & B1 & _). now exists ks'.
Qed.

End Facts.

(** * C10: the session's answers decide the harvest *)

Section Determinism.

Variables Element1 Post1 Field1 Exn1 : Type.
Variables Element2 Post2 Field2 Exn2 : Type.
Variable S1 : Session Element1 Post1 Field1 Exn1.
Variable S2 : Session Element2 Post2 Field2 Exn2.

Lemma erase_app {Post Exn : Type} (tr tr' : trace Post Exn) :
  erase (tr ++ tr') = erase tr ++ erase tr'.
Proof. apply map_app. Qed.

Lemma retried_log_then {Element Post Field Exn : Type}
    (DS : Session Element Post Field Exn) (pre : trace Post Exn)
    (r : retried Element Post Field Exn DS) :
  retried_log (retried_then pre r) = pre ++ retried_log r.
Proof. destruct r; reflexivity. Qed.

Lemma retried_ctl_then {Element Post Field Exn : Type}
    (DS : Session Element Post Field Exn) (pre : trace Post Exn)
    (r : retried Element Post Field Exn DS) :
  retried_ctl (retried_then pre r) = retried_ctl r.
Proof. destruct r; reflexivity. Qed.

Lemma load_retry_lockstep el1 fs1 el2 fs2 i lfc w1 w2 x1 x2 :
  let r1 := load_retry S1 el1 fs1 i lfc w1 in
  let r2 := load_retry S2 el2 fs2 i lfc w2 in
  responses (retried_log r1) ++ x1 = responses (retried_log r2) ++ x2 ->
  erase (retried_log r1) = erase (retried_log r2) /\
  retried_ctl r1 = retried_ctl r2 /\ x1 = x2.
Proof.
  remember (10 - lfc) as k eqn:Hk. revert lfc w1 w2 Hk.
  induction k as [| k IH]; intros lfc w1 w2 Hk; cbv zeta.
  - rewrite !load_retry_done by lia. simpl. auto.
  - rewrite !load_retry_step by lia.
    destruct (probe S1 el1 i fs1 w1) as [[e1 | p1] w1'],
             (probe S2 el2 i fs2 w2) as [[e2 | p2] w2'].
    + rewrite !retried_log_then, !retried_ctl_then, !responses_app, !erase_app.
      simpl. intros H. injection H as H.
      apply IH in H; [| lia]. destruct H as (H1 & H2 & H3).
      rewrite H1. auto.
    + rewrite retried_log_then, responses_app. simpl. discriminate.
    + rewrite retried_log_then, responses_app. simpl. discriminate.
    + simpl. intros H. injection H as H. auto.
Qed.

Lemma harvest_lockstep el1 fs1 el2 fs2 i sfc w1 w2 x1 x2 :
  let s1 := harvest S1 el1 fs1 i sfc w1 in
  let s2 := harvest S2 el2 fs2 i sfc w2 in
  responses (log s1) ++ x1 = responses (log s2) ++ x2 ->
  erase (log s1) = erase (log s2) /\
  erase_signal (sig s1) = erase_signal (sig s2) /\
  control_of (after s1) = control_of (after s2) /\ x1 = x2.
Proof.
  remember (10 - sfc) as k eqn:Hk. revert i sfc w1 w2 Hk.
  induction k as [| k IH]; intros i sfc w1 w2 Hk; cbv zeta.
  - rewrite !harvest_done by lia. simpl. auto.
  - rewrite !harvest_step by lia.
    destruct (probe S1 el1 i fs1 w1) as [[e1 | p1] w1'],
             (probe S2 el2 i fs2 w2) as [[e2 | p2] w2']; cbv zeta.
    + set (v1 := sleep S1 SCROLL_PAUSE (snd (scroll_to_bottom S1 w1'))).
      set (v2 := sleep S2 SCROLL_PAUSE (snd (scroll_to_bottom S2 w2'))).
      destruct (load_retry S1 el1 fs1 i 0 v1) as [t1 p1 j1 u1 | t1 j1 u1] eqn:E1,
               (load_retry S2 el2 fs2 i 0 v2) as [t2 p2 j2 u2 | t2 j2 u2] eqn:E2;
        cbn [log sig after and_then];
        rewrite ?responses_app, ?erase_app, <- ?app_assoc; simpl;
        intros H; injection H as H;
        match goal with
        | H : responses t1 ++ ?X1 = responses t2 ++ ?X2 |- _ =>
            pose proof (load_retry_lockstep el1 fs1 el2 fs2 i 0 v1 v2 X1 X2)
              as L
        end;
        cbv zeta in L; rewrite E1, E2 in L; specialize (L H);
        destruct L as (L1 & L2 & L3); cbn [retried_log] in L1;
        simpl in L2; try discriminate.
      * injection L2 as ->. rewrite L1. auto.
      * apply IH in L3; [| lia]. destruct L3 as (R1 & R2 & R3 & R4).
        rewrite L1, R1. auto.
    + cbn [log]. destruct (load_retry S1 el1 fs1 i 0 _);
        cbn [log and_then]; rewrite ?responses_app; simpl; discriminate.
    + cbn [log]. destruct (load_retry S2 el2 fs2 i 0 _);
        cbn [log and_then]; rewrite ?responses_app; simpl; discriminate.
    + simpl. intros H. injection H as H. auto.
Qed.

Lemma next_lockstep fr1 fr2 w1 w2 x1 x2 :
  control_of fr1 = control_of fr2 ->
  let s1 := next S1 fr1 w1 in
  let s2 := next S2 fr2 w2 in
  responses (log s1) ++ x1 = responses (log s2) ++ x2 ->
  erase (log s1) = erase (log s2) /\
  erase_signal (sig s1) = erase_signal (sig s2) /\
  control_of (after s1) = control_of (after s2) /\ x1 = x2.
Proof.
  intros Hctl.
  destruct fr1 as [fo1 | el1 fs1 i1 n1 | el1 fs1 i1 n1 k1 | i1 n1 | c1],
           fr2 as [fo2 | el2 fs2 i2 n2 | el2 fs2 i2 n2 k2 | i2 n2 | c2];
    try discriminate; cbv zeta.
  - destruct (find_feed_el S1 (snd (scroll_to_top S1 w1)))
      as [[e1 | el1] v1] eqn:F1,
      (find_feed_el S2 (snd (scroll_to_top S2 w2)))
      as [[e2 | el2] v2] eqn:F2.
    + rewrite (next_created_missing _ _ _ _ S1 fo1 w1 e1 v1 F1),
        (next_created_missing _ _ _ _ S2 fo2 w2 e2 v2 F2).
      simpl. intros H. injection H as H. auto.
    + rewrite (next_created_missing _ _ _ _ S1 fo1 w1 e1 v1 F1),
        (next_created_found _ _ _ _ S2 fo2 w2 el2 v2 F2).
      simpl. discriminate.
    + rewrite (next_created_found _ _ _ _ S1 fo1 w1 el1 v1 F1),
        (next_created_missing _ _ _ _ S2 fo2 w2 e2 v2 F2).
      simpl. discriminate.
    + rewrite (next_created_found _ _ _ _ S1 fo1 w1 el1 v1 F1),
        (next_created_found _ _ _ _ S2 fo2 w2 el2 v2 F2).
      cbn [log sig after and_then]. rewrite !responses_app, !erase_app.
      simpl. intros H. injection H as H.
      apply harvest_lockstep in H. destruct H as (H1 & H2 & H3 & H4).
      rewrite H1. auto.
  - injection Hctl as -> ->. rewrite !next_at_yield. apply harvest_lockstep.
  - injection Hctl as -> -> ->. rewrite !next_at_retry_yield.
    apply harvest_lockstep.
  - simpl. auto.
  - simpl. auto.
Qed.

Lemma consume_lockstep n : forall fr1 fr2 w1 w2 x1 x2,
  control_of fr1 = control_of fr2 ->
  let r1 := consume S1 n fr1 w1 in
  let r2 := consume S2 n fr2 w2 in
  responses (fst (fst r1)) ++ x1 = responses (fst (fst r2)) ++ x2 ->
  erase (fst (fst r1)) = erase (fst (fst r2)) /\
  control_of (snd (fst r1)) = control_of (snd (fst r2)) /\ x1 = x2.
Proof.
  induction n as [| n IH]; intros fr1 fr2 w1 w2 x1 x2 Hctl; cbv zeta.
  - simpl. auto.
  - rewrite !consume_S. cbv zeta.
    pose proof (next_lockstep fr1 fr2 w1 w2) as Hstep. cbv zeta in Hstep.
    set (s1 := next S1 fr1 w1) in *. set (s2 := next S2 fr2 w2) in *.
    specialize (IH (after s1) (after s2) (now s1) (now s2)).
    cbv zeta in IH.
    destruct (consume S1 n (after s1) (now s1)) as [[t1 g1] u1],
             (consume S2 n (after s2) (now s2)) as [[t2 g2] u2].
    cbn [fst snd] in IH.
    destruct (sig s1) eqn:G1, (sig s2) eqn:G2; cbn [fst snd];
      rewrite ?responses_app, ?erase_app, <- ?app_assoc; intros H;
      apply (Hstep _ _ Hctl) in H; destruct H as (H1 & H2 & H3 & H4);
      try discriminate.
    + apply (IH _ _ H3) in H4. destruct H4 as (I1 & I2 & I3).
      rewrite H1, I1. auto.
    + auto.
    + auto.
Qed.

Lemma positions_yielded_erase {Post Exn : Type} (tr : trace Post Exn) :
  positions_yielded (erase tr) = positions_yielded tr.
Proof.
  unfold positions_yielded, yields, erase.
  induction tr as [| ev tr IH]; [reflexivity |].
  destruct ev; simpl; congruence.
Qed.

Lemma positions_probed_erase {Post Exn : Type} (tr : trace Post Exn) :
  positions_probed (erase tr) = positions_probed tr.
Proof.
  unfold positions_probed, probes, erase.
  induction tr as [| ev tr IH]; [reflexivity |].
  destruct ev; simpl; congruence.
Qed.

(** C10.  Run [browse] on two sessions, of any kind, and let the consumer
    make the same number of calls of [next] on both.  If the sessions gave
    the same answers (feed element found or not, each probe found or not),
    the two harvests are the same: the same calls in the same order, up to
    the posts and exception objects the sessions handed over, so the same
    positions are probed and yielded, and both generators stop in the same
    place with the same counters. *)
Theorem browse_determined_by_responses n fo1 fo2 w1 w2 :
  let r1 := consume S1 n (browse fo1) w1 in
  let r2 := consume S2 n (browse fo2) w2 in
  responses (fst (fst r1)) = responses (fst (fst r2)) ->
  erase (fst (fst r1)) = erase (fst (fst r2)) /\
  positions_probed (fst (fst r1)) = positions_probed (fst (fst r2)) /\
  positions_yielded (fst (fst r1)) = positions_yielded (fst (fst r2)) /\
  control_of (snd (fst r1)) = control_of (snd (fst r2)).
Proof.
  intros r1 r2 H. unfold browse in *.
  destruct (consume_lockstep n (Created fo1) (Created fo2) w1 w2 [] []
              eq_refl) as (E & C & _).
  { fold r1 r2. now rewrite !app_nil_r. }
  fold r1 r2 in E, C. split; [assumption |].
  rewrite <- (positions_probed_erase (fst (fst r1))),
    <- (positions_yielded_erase (fst (fst r1))), E,
    positions_probed_erase, positions_yielded_erase.
  auto.
Qed.

End Determinism.

(** * C9: the sidebar advertisements *)

Section SidebarFacts.

Variables Page WebElement : Type.
Variable find_elements : Page -> list WebElement.
Variable el_text : WebElement -> Sidebar.str.

Lemma list_map_make_ad (lines : list (list Sidebar.str)) :
  Forall (fun lst => List.length lst = 2) lines ->
  exists ads,
    Sidebar.list_map Sidebar.make_ad lines = inr ads /\
    map (fun ad => [Sidebar.text ad; Sidebar.link ad]) ads = lines.
Proof.
  induction 1 as [| lst lines Hlen _ IH].
  - now exists [].
  - destruct IH as (ads & E & M).
    destruct lst as [| t [| l [| x lst]]]; try discriminate.
    exists ({| Sidebar.text := t; Sidebar.link := l |} :: ads).
    simpl. rewrite E, M. auto.
Qed.

(** C9, as the code has it.  With no advertiser element on the page the
    result is the empty list; and whenever the text of every advertiser
    element has exactly two lines the call returns, with one [SidebarAd] per
    element, made of the element's first and second line in this order. *)
Theorem get_sidebar_ads_two_line_texts (page : Page) :
  Forall (fun el => List.length (Sidebar.splitlines (el_text el)) = 2)
    (find_elements page) ->
  exists ads,
    Sidebar.get_sidebar_ads find_elements el_text page = inr ads /\
    map (fun ad => [Sidebar.text ad; Sidebar.link ad]) ads =
      map (fun el => Sidebar.splitlines (el_text el)) (find_elements page) /\
    (find_elements page = [] -> ads = []).
Proof.
  intros Hall. unfold Sidebar.get_sidebar_ads.
  destruct (list_map_make_ad
              (map Sidebar.splitlines (map el_text (find_elements page))))
    as (ads & E & M).
  - rewrite map_map. apply Forall_map. exact Hall.
  - exists ads. rewrite E, M, map_map. repeat split.
    intros Hnil. rewrite Hnil in M. destruct ads; [reflexivity | discriminate].
Qed.

End SidebarFacts.

(** * Further properties of the harvest *)

Section MoreFacts.

Variables Element Post Field Exn : Type.
Variable DS : Session Element Post Field Exn.
Implicit Types (el : Element) (fs : list Field) (w : World DS).
Implicit Types (tr : trace Post Exn) (i m n sfc lfc : nat).

(** ** The work of one call of [next] *)

Lemma length_exhausted i m : List.length (exhausted i m) = 11 * m.
Proof.
  revert i. induction m as [| m IH]; intros i; [reflexivity |].
  rewrite exhausted_S, length_app, repeat_length, IH. lia.
Qed.

Lemma harvest_bounded el fs i sfc w :
  let s := harvest DS el fs i sfc w in
  List.length (probes (log s)) <= 11 * (10 - sfc) /\
  scroll_cycles (log s) <= 10 - sfc /\
  List.length (yields (log s)) <= 1.
Proof.
  intros s. destruct (le_lt_dec 10 sfc) as [Hge | Hlt].
  - subst s. rewrite harvest_done by assumption. cbn. lia.
  - destruct (harvest_shape _ _ _ _ DS el fs i sfc w) as [m Hs]. fold s in Hs.
    destruct Hs as [Ha | [(q & Hb) | (q & j & Hc)]].
    + destruct Ha as (_ & _ & _ & A4 & A5 & A6 & A7).
      rewrite A5, A6, A7, length_exhausted. cbn [List.length]. lia.
    + destruct Hb as (_ & _ & A3 & A5 & A6 & A7).
      rewrite A5, A6, A7, length_app, length_exhausted. cbn [List.length]. lia.
    + destruct Hc as (_ & _ & A3 & A4 & A5 & A6 & A7).
      rewrite A5, A6, A7, !length_app, length_exhausted, repeat_length.
      cbn [List.length]. lia.
Qed.

(** X1.  Whatever frame it is called on and whatever the session answers, one
    call of [next] probes at most 110 times, scrolls to the bottom at most ten
    times and yields at most one post. *)
Theorem next_bounded_work fr w :
  let s := next DS fr w in
  List.length (probes (log s)) <= 110 /\
  scroll_cycles (log s) <= 10 /\
  List.length (yields (log s)) <= 1.
Proof.
  destruct fr as [fo | el fs i sfc | el fs i sfc lfc | i sfc | c]; cbv zeta.
  - unfold next, scroll_to_top.
    destruct (find_feed_el DS _) as [[e | el] w1].
    + cbn. lia.
    + cbn [log and_then].
      rewrite probes_app, yields_app, scroll_cycles_app, !length_app.
      pose proof (harvest_bounded el (fields_or_all DS fo) 1 0 w1) as H.
      cbv zeta in H.
      change (probes ([Scroll (Offset 1)] ++ [FindFeed true]))
        with (@nil (nat * bool)).
      change (yields ([Scroll (Offset 1)] ++ [FindFeed true]))
        with (@nil (nat * Post)).
      change (scroll_cycles
                (@app (event Post Exn) [Scroll (Offset 1)] [FindFeed true]))
        with 0.
      cbn [List.length]. lia.
  - rewrite next_at_yield.
    pose proof (harvest_bounded el fs (i + 1) sfc w) as H. cbv zeta in H. lia.
  - rewrite next_at_retry_yield.
    pose proof (harvest_bounded el fs (i + 1) 0 w) as H. cbv zeta in H.
    lia.
  - unfold next. cbn. lia.
  - unfold next. cbn. lia.
Qed.

(** ** The time one call of [next] sleeps *)

Lemma total_sleep_app tr tr' :
  (total_sleep (tr ++ tr') == total_sleep tr + total_sleep tr')%Q.
Proof.
  unfold total_sleep, sleeps. rewrite flat_map_app.
  induction (flat_map _ tr) as [| x l IH]; simpl; [lra | rewrite IH; lra].
Qed.

Lemma sum_repeat (q : Q) k :
  (fold_right Qplus 0 (repeat q k) == q * inject_Z (Z.of_nat k))%Q.
Proof.
  induction k as [| k IH].
  - change (0 == q * 0)%Q. lra.
  - cbn [repeat fold_right]. rewrite IH, Nat2Z.inj_succ. unfold Z.succ.
    rewrite inject_Z_plus. change (inject_Z 1) with 1%Q. lra.
Qed.

Lemma inject_nat_le a b :
  a <= b -> (inject_Z (Z.of_nat a) <= inject_Z (Z.of_nat b))%Q.
Proof. intros H. rewrite <- Zle_Qle. lia. Qed.

Lemma load_retry_sleep el fs i w :
  (total_sleep (retried_log (load_retry DS el fs i 0 w)) <= 5)%Q.
Proof.
  pose proof (load_retry_shape _ _ _ _ DS el fs i 0 w (Nat.le_0_l 10)) as H.
  destruct (load_retry DS el fs i 0 w) as [tr p j w' | tr j w'];
    destruct H as (H1 & _ & _ & _ & H5); cbn [retried_log];
    unfold total_sleep; rewrite H5, sum_repeat.
  - pose proof (inject_nat_le (j - 0) 10 ltac:(lia)) as Hle.
    change (inject_Z (Z.of_nat 10)) with 10%Q in Hle. lra.
  - change (inject_Z (Z.of_nat (10 - 0))) with 10%Q. lra.
Qed.

Lemma harvest_sleep el fs i sfc w :
  (total_sleep (log (harvest DS el fs i sfc w))
   <= 7.4 * inject_Z (Z.of_nat (10 - sfc)))%Q.
Proof.
  remember (10 - sfc) as k eqn:Hk. revert i sfc w Hk.
  induction k as [| k IH]; intros i sfc w Hk.
  - rewrite harvest_done by lia. change (0 <= 7.4 * 0)%Q. lra.
  - pose proof (inject_nat_le 0 k ltac:(lia)) as Hk0.
    change (inject_Z (Z.of_nat 0)) with 0%Q in Hk0.
    rewrite Nat2Z.inj_succ. unfold Z.succ. rewrite inject_Z_plus.
    change (inject_Z 1) with 1%Q.
    rewrite harvest_step by lia.
    destruct (probe DS el i fs w) as [[e | p] w1].
    + cbv zeta.
      pose proof (load_retry_sleep el fs i
                    (sleep DS SCROLL_PAUSE (snd (scroll_to_bottom DS w1))))
        as Hin.
      destruct (load_retry DS el fs i 0 _) as [tr' p j w4 | tr' j w4];
        cbn [retried_log] in Hin; cbn [log and_then];
        rewrite !total_sleep_app.
      * change (total_sleep
                  [Probe i false; Warn (ScrollFailCount post_count (sfc + 1));
                   Warn (ExnText e); Scroll BodyScrollHeight;
                   Sleep SCROLL_PAUSE; Sleep SCROLL_PAUSE])
          with (SCROLL_PAUSE + (SCROLL_PAUSE + 0))%Q.
        unfold SCROLL_PAUSE. lra.
      * change (total_sleep
                  [Probe i false; Warn (ScrollFailCount post_count (sfc + 1));
                   Warn (ExnText e); Scroll BodyScrollHeight;
                   Sleep SCROLL_PAUSE; Sleep SCROLL_PAUSE])
          with (SCROLL_PAUSE + (SCROLL_PAUSE + 0))%Q.
        specialize (IH (i + 1) (sfc + 1) w4 ltac:(lia)).
        unfold SCROLL_PAUSE. lra.
    + change (0 <= 7.4 * (inject_Z (Z.of_nat k) + 1))%Q. lra.
Qed.

(** X2.  One call of [next] spends at most 74 seconds in [time.sleep]: ten
    scroll cycles of two pauses of 1.2 s and ten retries 0.5 s apart. *)
Theorem next_sleeps_at_most_74_seconds fr w :
  (total_sleep (log (next DS fr w)) <= 74)%Q.
Proof.
  assert (Hall : forall el fs i sfc w',
             (total_sleep (log (harvest DS el fs i sfc w')) <= 74)%Q).
  { intros el fs i sfc w'.
    pose proof (harvest_sleep el fs i sfc w') as H.
    pose proof (inject_nat_le (10 - sfc) 10 ltac:(lia)) as Hle.
    change (inject_Z (Z.of_nat 10)) with 10%Q in Hle. lra. }
  destruct fr as [fo | el fs i sfc | el fs i sfc lfc | i sfc | c].
  - unfold next, scroll_to_top.
    destruct (find_feed_el DS _) as [[e | el] w1]; cbn [log and_then].
    + change (0 <= 74)%Q. lra.
    + rewrite total_sleep_app.
      change (total_sleep ([Scroll (Offset 1)] ++ [FindFeed true]))
        with 0%Q.
      specialize (Hall el (fields_or_all DS fo) 1 0 w1). lra.
  - apply Hall.
  - apply Hall.
  - unfold next. change (0 <= 74)%Q. lra.
  - unfold next. change (0 <= 74)%Q. lra.
Qed.

(** ** Posts found at the first probe do not reset the scroll-fail count *)

Lemma found_by_retry_app_l tr tr' p :
  found_by_retry tr p -> found_by_retry (tr ++ tr') p.
Proof.
  unfold found_by_retry. rewrite probes_app, !in_app_iff. tauto.
Qed.

Lemma found_by_retry_app_r tr tr' p :
  found_by_retry tr' p -> found_by_retry (tr ++ tr') p.
Proof.
  unfold found_by_retry. rewrite probes_app, !in_app_iff. tauto.
Qed.

Lemma harvest_counts_cycles el fs i sfc w :
  sfc <= 10 ->
  let s := harvest DS el fs i sfc w in
  (forall p, ~ found_by_retry (log s) p) ->
  next_scroll_fail_count (control_of (after s)) = sfc + scroll_cycles (log s)
  /\ next_scroll_fail_count (control_of (after s)) <= 10.
Proof.
  intros Hle s Hnone.
  destruct (harvest_shape _ _ _ _ DS el fs i sfc w) as [m Hs]. fold s in Hs.
  destruct Hs as [Ha | [(q & Hb) | (q & j & Hc)]].
  - destruct Ha as (_ & A2 & _ & A4 & _ & _ & A7).
    rewrite A2, A7. simpl. lia.
  - destruct Hb as (_ & A2 & A3 & _ & _ & A7).
    rewrite A2, A7. simpl. lia.
  - destruct Hc as (_ & _ & _ & _ & A5 & _). exfalso.
    apply (Hnone (i + m)). unfold found_by_retry. rewrite A5, !in_app_iff.
    split; right; [left; now left | right; now left].
Qed.

Lemma next_counts_cycles fr w :
  next_scroll_fail_count (control_of fr) <= 10 ->
  let s := next DS fr w in
  (forall p, ~ found_by_retry (log s) p) ->
  next_scroll_fail_count (control_of (after s)) =
    next_scroll_fail_count (control_of fr) + scroll_cycles (log s)
  /\ next_scroll_fail_count (control_of (after s)) <= 10.
Proof.
  destruct fr as [fo | el fs i sfc | el fs i sfc lfc | i sfc | c];
    cbn [control_of next_scroll_fail_count]; intros Hle; cbv zeta.
  - unfold next, scroll_to_top.
    destruct (find_feed_el DS _) as [[e | el] w1]; cbn [log after and_then].
    + intros _. cbn. lia.
    + intros Hnone. rewrite scroll_cycles_app.
      change (scroll_cycles
                (@app (event Post Exn) [Scroll (Offset 1)] [FindFeed true]))
        with 0.
      apply (harvest_counts_cycles el (fields_or_all DS fo) 1 0 w1); [lia |].
      intros p Hp. apply (Hnone p). now apply found_by_retry_app_r.
  - rewrite next_at_yield. now apply harvest_counts_cycles.
  - rewrite next_at_retry_yield. now apply harvest_counts_cycles.
  - intros _. unfold next. cbn. lia.
  - intros _. unfold next. cbn. lia.
Qed.

Lemma consume_counts_cycles n : forall fr w,
  next_scroll_fail_count (control_of fr) <= 10 ->
  let r := consume DS n fr w in
  (forall p, ~ found_by_retry (fst (fst r)) p) ->
  next_scroll_fail_count (control_of (snd (fst r))) =
    next_scroll_fail_count (control_of fr) + scroll_cycles (fst (fst r))
  /\ next_scroll_fail_count (control_of (snd (fst r))) <= 10.
Proof.
  induction n as [| n IH]; intros fr w Hle; cbv zeta.
  - intros _. cbn. lia.
  - rewrite consume_S. cbv zeta.
    pose proof (next_counts_cycles fr w Hle) as Hstep. cbv zeta in Hstep.
    set (s := next DS fr w) in *.
    specialize (IH (after s) (now s)). cbv zeta in IH.
    destruct (sig s) as [post | |]; try exact Hstep.
    destruct (consume DS n (after s) (now s)) as [[tr fr'] w'].
    cbn [fst snd] in *. intros Hnone.
    destruct Hstep as (S1 & S2).
    { intros p Hp. apply (Hnone p). now apply found_by_retry_app_l. }
    destruct (IH S2) as (I1 & I2).
    { intros p Hp. apply (Hnone p). now apply found_by_retry_app_r. }
    rewrite scroll_cycles_app. lia.
Qed.

(** X3.  The scroll-fail count is reset only when a retry finds the post.  In a
    harvest in which no post is found by a retry, every scroll cycle stays
    counted, however many posts were found at their first probe in between:
    the counter at the next [while] test is the number of scroll cycles made
    so far, so the whole harvest makes at most ten of them. *)
Theorem direct_finds_keep_the_count n fo w :
  let r := consume DS n (browse fo) w in
  (forall p, ~ found_by_retry (fst (fst r)) p) ->
  next_scroll_fail_count (control_of (snd (fst r))) = scroll_cycles (fst (fst r))
  /\ scroll_cycles (fst (fst r)) <= 10.
Proof.
  intros r Hnone.
  destruct (consume_counts_cycles n (browse fo) w (Nat.le_0_l 10) Hnone)
    as (H1 & H2).
  fold r in H1, H2. cbn [browse control_of next_scroll_fail_count] in H1.
  lia.
Qed.

(** ** What is yielded *)

Lemma load_retry_yields_posts el fs i lfc w :
  Forall (fun ip => exists w0 w', probe DS el (fst ip) fs w0 = (inr (snd ip), w'))
    (yields (retried_log (load_retry DS el fs i lfc w))).
Proof.
  remember (10 - lfc) as k eqn:Hk. revert lfc w Hk.
  induction k as [| k IH]; intros lfc w Hk.
  - rewrite load_retry_done by lia. constructor.
  - rewrite load_retry_step by lia.
    destruct (probe DS el i fs w) as [[e | p] w1] eqn:Hp.
    + rewrite retried_log_then, yields_app. apply IH. lia.
    + repeat constructor. now exists w, w1.
Qed.

Lemma harvest_yields_posts el fs i sfc w :
  Forall (fun ip => exists w0 w', probe DS el (fst ip) fs w0 = (inr (snd ip), w'))
    (yields (log (harvest DS el fs i sfc w))).
Proof.
  remember (10 - sfc) as k eqn:Hk. revert i sfc w Hk.
  induction k as [| k IH]; intros i sfc w Hk.
  - rewrite harvest_done by lia. constructor.
  - rewrite harvest_step by lia.
    destruct (probe DS el i fs w) as [[e | p] w1] eqn:Hp.
    + cbv zeta.
      pose proof (load_retry_yields_posts el fs i 0
                    (sleep DS SCROLL_PAUSE (snd (scroll_to_bottom DS w1))))
        as Hin.
      destruct (load_retry DS el fs i 0 _) as [tr' p j w4 | tr' j w4];
        cbn [retried_log] in Hin; cbn [log and_then];
        rewrite !yields_app.
      * exact Hin.
      * apply Forall_app. split; [exact Hin | apply IH; lia].
    + repeat constructor. now exists w, w1.
Qed.

Lemma harvest_keeps_handles el fs i sfc w :
  match after (harvest DS el fs i sfc w) with
  | AtYield el' fs' _ _ | AtRetryYield el' fs' _ _ _ => el' = el /\ fs' = fs
  | Created _ => False
  | _ => True
  end.
Proof.
  destruct (harvest_shape _ _ _ _ DS el fs i sfc w) as [m Hs]. cbv zeta in Hs.
  destruct Hs as [Ha | [(q & Hb) | (q & j & Hc)]].
  - destruct Ha as (_ & -> & _). exact I.
  - destruct Hb as (_ & -> & _). now split.
  - destruct Hc as (_ & -> & _). now split.
Qed.

Lemma consume_yields_posts el fs n : forall fr w,
  match fr with
  | AtYield el' fs' _ _ | AtRetryYield el' fs' _ _ _ => el' = el /\ fs' = fs
  | Created _ => False
  | _ => True
  end ->
  Forall (fun ip => exists w0 w', probe DS el (fst ip) fs w0 = (inr (snd ip), w'))
    (yields (fst (fst (consume DS n fr w)))).
Proof.
  induction n as [| n IH]; intros fr w Hfr; [constructor |].
  rewrite consume_S. cbv zeta.
  assert (Hstep :
            Forall (fun ip => exists w0 w',
                        probe DS el (fst ip) fs w0 = (inr (snd ip), w'))
              (yields (log (next DS fr w))) /\
            match after (next DS fr w) with
            | AtYield el' fs' _ _ | AtRetryYield el' fs' _ _ _ =>
                el' = el /\ fs' = fs
            | Created _ => False
            | _ => True
            end).
  { destruct fr as [fo | el0 fs0 i sfc | el0 fs0 i sfc lfc | i sfc | c];
      try contradiction.
    - destruct Hfr as [-> ->]. rewrite next_at_yield.
      split; [apply harvest_yields_posts | apply harvest_keeps_handles].
    - destruct Hfr as [-> ->]. rewrite next_at_retry_yield.
      split; [apply harvest_yields_posts | apply harvest_keeps_handles].
    - unfold next. split; [constructor | exact I].
    - unfold next. split; [constructor | exact I]. }
  destruct Hstep as (Hy & Hafter).
  destruct (sig (next DS fr w)) as [post | |]; try exact Hy.
  specialize (IH (after (next DS fr w)) (now (next DS fr w)) Hafter).
  destruct (consume DS n _ _) as [[tr fr'] w']. cbn [fst] in *.
  rewrite yields_app. apply Forall_app. now split.
Qed.

(** X4.  Every post a harvest yields for a position [i] is one the session
    returned for exactly that position, looked up under the feed element
    found at the start and materialized with the fields passed to [browse]
    (all fields when none were passed). *)
Theorem yields_are_session_posts n fo w el w1 i p :
  find_feed_el DS (snd (scroll_to_top DS w)) = (inr el, w1) ->
  In (i, p) (yields (fst (fst (consume DS n (browse fo) w)))) ->
  exists w0 w', probe DS el i (fields_or_all DS fo) w0 = (inr p, w').
Proof.
  intros Hfeed Hin. unfold browse in Hin.
  destruct n as [| n]; [contradiction |].
  rewrite consume_S in Hin. cbv zeta in Hin.
  rewrite (next_created_found _ _ _ _ DS fo w el w1 Hfeed) in Hin.
  cbn [sig log after now and_then] in Hin.
  set (fs := fields_or_all DS fo) in *.
  pose proof (harvest_yields_posts el fs 1 0 w1) as Hy.
  pose proof (harvest_keeps_handles el fs 1 0 w1) as Hk.
  rewrite Forall_forall in Hy.
  destruct (sig (harvest DS el fs 1 0 w1)) as [post | |];
    cbn [fst] in Hin; rewrite ?yields_app in Hin;
    try (apply (Hy (i, p)); rewrite in_app_iff in Hin;
         destruct Hin as [[] | Hin]; exact Hin).
  pose proof (consume_yields_posts el fs n (after (harvest DS el fs 1 0 w1))
                (now (harvest DS el fs 1 0 w1)) Hk) as Hrest.
  destruct (consume DS n _ _) as [[tr fr'] w']. cbn [fst] in *.
  rewrite !yields_app, !in_app_iff in Hin.
  rewrite Forall_forall in Hrest.
  destruct Hin as [[[] | Hin] | Hin].
  - exact (Hy (i, p) Hin).
  - exact (Hrest (i, p) Hin).
Qed.

(** ** Where the generator scrolls *)

Lemma all_bottom_repeat (l : list scroll_pos) :
  Forall (fun pos => is_bottom pos = true) l ->
  l = repeat BodyScrollHeight (List.length (filter is_bottom l)).
Proof.
  induction 1 as [| pos l Hpos _ IH]; [reflexivity |].
  destruct pos; [discriminate |]. simpl. now f_equal.
Qed.

Lemma harvest_scrolls_down el fs i sfc w :
  Forall (fun pos => is_bottom pos = true)
    (scrolls (log (harvest DS el fs i sfc w))).
Proof.
  remember (10 - sfc) as k eqn:Hk. revert i sfc w Hk.
  induction k as [| k IH]; intros i sfc w Hk.
  - rewrite harvest_done by lia. constructor.
  - rewrite harvest_step by lia.
    destruct (probe DS el i fs w) as [[e | p] w1]; [| constructor].
    cbv zeta.
    pose proof (load_retry_shape _ _ _ _ DS el fs i 0
                  (sleep DS SCROLL_PAUSE (snd (scroll_to_bottom DS w1)))
                  (Nat.le_0_l 10)) as Hin.
    destruct (load_retry DS el fs i 0 _) as [tr' p j w4 | tr' j w4];
      destruct Hin as (_ & _ & _ & H4 & _); cbn [log and_then];
      rewrite !scrolls_app, H4.
    + repeat constructor.
    + apply Forall_app. split; [repeat constructor | apply IH; lia].
Qed.

Lemma consume_scrolls_down n : forall fr w,
  (forall fo, fr <> Created fo) ->
  Forall (fun pos => is_bottom pos = true)
    (scrolls (fst (fst (consume DS n fr w)))).
Proof.
  induction n as [| n IH]; intros fr w Hfr; [constructor |].
  rewrite consume_S. cbv zeta.
  assert (Hstep :
            Forall (fun pos => is_bottom pos = true)
              (scrolls (log (next DS fr w))) /\
            forall fo, after (next DS fr w) <> Created fo).
  { destruct fr as [fo | el fs i sfc | el fs i sfc lfc | i sfc | c].
    - now destruct (Hfr fo).
    - rewrite next_at_yield. split; [apply harvest_scrolls_down |].
      intros fo E. pose proof (harvest_keeps_handles el fs (i + 1) sfc w) as H.
      now rewrite E in H.
    - rewrite next_at_retry_yield. split; [apply harvest_scrolls_down |].
      intros fo E. pose proof (harvest_keeps_handles el fs (i + 1) 0 w) as H.
      now rewrite E in H.
    - unfold next. split; [constructor | discriminate].
    - unfold next. split; [constructor | discriminate]. }
  destruct Hstep as (Hs & Hafter).
  destruct (sig (next DS fr w)) as [post | |]; try exact Hs.
  specialize (IH (after (next DS fr w)) (now (next DS fr w)) Hafter).
  destruct (consume DS n _ _) as [[tr fr'] w']. cbn [fst] in *.
  rewrite scrolls_app. apply Forall_app. now split.
Qed.

(** X5.  A harvest scrolls to the top exactly once, as its very first call on the
    session; every later scroll goes to the bottom of the page, one per scroll
    cycle. *)
Theorem scrolls_up_once_then_down n fo w :
  let tr := fst (fst (consume DS (S n) (browse fo) w)) in
  scrolls tr = Offset 1 :: repeat BodyScrollHeight (scroll_cycles tr).
Proof.
  cbv zeta. unfold browse. rewrite consume_S. cbv zeta.
  destruct (find_feed_el DS (snd (scroll_to_top DS w))) as [[e | el] w1] eqn:Hf.
  - rewrite (next_created_missing _ _ _ _ DS fo w e w1 Hf). reflexivity.
  - rewrite (next_created_found _ _ _ _ DS fo w el w1 Hf).
    cbn [sig log after now and_then].
    set (s := harvest DS el (fields_or_all DS fo) 1 0 w1).
    pose proof (harvest_scrolls_down el (fields_or_all DS fo) 1 0 w1) as Hs.
    pose proof (harvest_keeps_handles el (fields_or_all DS fo) 1 0 w1) as Hk.
    fold s in Hs, Hk.
    assert (Hrest : forall tr',
               Forall (fun pos => is_bottom pos = true) (scrolls tr') ->
               scrolls ([Scroll (Offset 1); FindFeed true] ++ tr') =
               Offset 1 ::
                 repeat BodyScrollHeight
                   (scroll_cycles ([Scroll (Offset 1); FindFeed true] ++ tr'))).
    { intros tr' Hall. rewrite scrolls_app, scroll_cycles_app.
      change (scrolls [Scroll (Offset 1); FindFeed true])
        with [Offset 1].
      change (scroll_cycles
                (@cons (event Post Exn) (Scroll (Offset 1)) [FindFeed true]))
        with 0.
      cbn [app Nat.add]. f_equal. now apply all_bottom_repeat. }
    destruct (sig s) as [post | |]; cbn [fst]; try (apply Hrest; exact Hs).
    pose proof (consume_scrolls_down n (after s) (now s)) as Hc.
    destruct (consume DS n (after s) (now s)) as [[tr fr'] w']. cbn [fst] in *.
    rewrite <- app_assoc. apply Hrest. rewrite scrolls_app.
    apply Forall_app. split; [exact Hs |]. apply Hc.
    intros fo' E. now rewrite E in Hk.
Qed.

(** ** A finished generator *)

Lemma next_finished_or_yielded fr w :
  let s := next DS fr w in
  (exists p, sig s = Yielded p) \/ finished (after s) = true.
Proof.
  assert (Hh : forall el fs i sfc w',
             let s := harvest DS el fs i sfc w' in
             (exists p, sig s = Yielded p) \/ finished (after s) = true).
  { intros el fs i sfc w' s.
    destruct (harvest_shape _ _ _ _ DS el fs i sfc w') as [m Hs]. fold s in Hs.
    destruct Hs as [Ha | [(q & Hb) | (q & j & Hc)]].
    - destruct Ha as (_ & -> & _). now right.
    - destruct Hb as (-> & _). left. now exists q.
    - destruct Hc as (-> & _). left. now exists q. }
  destruct fr as [fo | el fs i sfc | el fs i sfc lfc | i sfc | c]; cbv zeta.
  - unfold next, scroll_to_top.
    destruct (find_feed_el DS _) as [[e | el] w1]; cbn [sig after and_then].
    + now right.
    + apply Hh.
  - apply Hh.
  - apply Hh.
  - now right.
  - now right.
Qed.

Lemma consume_finished n fr w :
  finished fr = true -> consume DS n fr w = ([], fr, w).
Proof.
  intros Hfin. destruct n as [| n]; [reflexivity |].
  destruct fr; try discriminate; reflexivity.
Qed.

(** X6.  Once a call of [next] has not yielded (the loop ended, or the feed
    element was missing), the generator is finished for good: however often
    the consumer calls again, nothing is yielded and the session is not
    touched any more. *)
Theorem no_call_after_the_end fr w n w' :
  let s := next DS fr w in
  (forall p, sig s <> Yielded p) ->
  consume DS n (after s) w' = ([], after s, w') /\
  sig (next DS (after s) w') = StopIteration /\
  now (next DS (after s) w') = w'.
Proof.
  cbv zeta. intros Hno.
  destruct (next_finished_or_yielded fr w) as [(p & Hp) | Hfin];
    cbv zeta in *.
  - now destruct (Hno p).
  - split; [now apply consume_finished |].
    destruct (after (next DS fr w)); try discriminate; split; reflexivity.
Qed.

(** ** Posts found at the first probe *)

Lemma sleeps_app tr tr' : sleeps (tr ++ tr') = sleeps tr ++ sleeps tr'.
Proof. apply flat_map_app. Qed.

Lemma consume_direct el fs k : forall i sfc w,
  sfc < 10 ->
  (forall j w', i < j <= i + k -> found (probe DS el j fs w') = true) ->
  let r := consume DS k (AtYield el fs i sfc) w in
  positions_yielded (fst (fst r)) = seq (i + 1) k /\
  probes (fst (fst r)) = map (fun j => (j, true)) (seq (i + 1) k) /\
  scrolls (fst (fst r)) = [] /\ sleeps (fst (fst r)) = [] /\
  control_of (snd (fst r)) = CAtYield (i + k) sfc.
Proof.
  induction k as [| k IH]; intros i sfc w Hlt Hyes; cbv zeta.
  - cbn. now rewrite Nat.add_0_r.
  - rewrite consume_S, next_at_yield. cbv zeta.
    destruct (harvest_found _ _ _ _ DS el fs (i + 1) sfc w Hlt)
      as (p & w1 & E); [apply Hyes; lia |].
    rewrite E. cbn [sig log after now].
    specialize (IH (i + 1) sfc w1 Hlt). cbv zeta in IH.
    destruct (consume DS k (AtYield el fs (i + 1) sfc) w1) as [[tr fr'] w'].
    cbn [fst snd] in *.
    destruct IH as (I1 & I2 & I3 & I4 & I5).
    { intros j w'' Hj. apply Hyes. lia. }
    unfold positions_yielded in *.
    rewrite yields_app, probes_app, scrolls_app, sleeps_app, map_app.
    rewrite I1, I2, I3, I4, I5.
    replace (i + 1 + 1) with (S (i + 1)) by lia.
    replace (i + 1 + k) with (i + S k) by lia.
    repeat split; reflexivity.
Qed.

(** X7.  While every position is found at its first probe, [browse] itself
    neither scrolls down nor sleeps: on a feed whose positions 1..N are always
    found, the first N calls of [next] yield the posts of 1..N in order, with
    one probe each, no scroll cycle and no sleep. *)
Theorem found_at_once_needs_no_scroll (N : nat) fo w el w1 :
  (forall el' j fs w', 1 <= j <= N -> found (probe DS el' j fs w') = true) ->
  find_feed_el DS (snd (scroll_to_top DS w)) = (inr el, w1) ->
  let r := consume DS N (browse fo) w in
  positions_yielded (fst (fst r)) = seq 1 N /\
  probes (fst (fst r)) = map (fun j => (j, true)) (seq 1 N) /\
  scroll_cycles (fst (fst r)) = 0 /\ sleeps (fst (fst r)) = [] /\
  next_position (control_of (snd (fst r))) = N + 1.
Proof.
  intros Hyes Hfeed. cbv zeta. unfold browse.
  destruct N as [| k]; [repeat split; reflexivity |].
  rewrite consume_S, (next_created_found _ _ _ _ DS fo w el w1 Hfeed).
  cbv zeta. set (fs := fields_or_all DS fo).
  destruct (harvest_found _ _ _ _ DS el fs 1 0 w1) as (p & w2 & E);
    [lia | apply Hyes; lia |].
  rewrite E. cbn [sig log after now and_then].
  pose proof (consume_direct el fs k 1 0 w2 ltac:(lia)) as Hc.
  cbv zeta in Hc.
  destruct (consume DS k (AtYield el fs 1 0) w2) as [[tr fr'] w'].
  cbn [fst snd] in *.
  destruct Hc as (I1 & I2 & I3 & I4 & I5).
  { intros j w'' Hj. apply Hyes. lia. }
  unfold positions_yielded, scroll_cycles in *.
  rewrite !yields_app, !probes_app, !scrolls_app, !sleeps_app, !map_app.
  rewrite I1, I2, I3, I4, I5.
  repeat split; first [reflexivity | cbn; lia].
Qed.

(** ** What the warnings report *)

Lemma warnings_app tr tr' :
  warnings (tr ++ tr') = warnings tr ++ warnings tr'.
Proof. apply flat_map_app. Qed.

Lemma load_retry_warnings el fs i lfc w :
  Forall plausible_warning
    (warnings (retried_log (load_retry DS el fs i lfc w))).
Proof.
  remember (10 - lfc) as k eqn:Hk. revert lfc w Hk.
  induction k as [| k IH]; intros lfc w Hk.
  - rewrite load_retry_done by lia. constructor.
  - rewrite load_retry_step by lia.
    destruct (probe DS el i fs w) as [[e | p] w1]; [| constructor].
    rewrite retried_log_then, warnings_app. apply Forall_app. split.
    + cbn [warnings flat_map app].
      repeat (apply Forall_cons || apply Forall_nil); cbn [plausible_warning];
        first [exact I | split; [reflexivity | lia]].
    + apply IH. lia.
Qed.

Lemma harvest_warnings el fs i sfc w :
  Forall plausible_warning (warnings (log (harvest DS el fs i sfc w))).
Proof.
  remember (10 - sfc) as k eqn:Hk. revert i sfc w Hk.
  induction k as [| k IH]; intros i sfc w Hk.
  - rewrite harvest_done by lia. constructor.
  - rewrite harvest_step by lia.
    destruct (probe DS el i fs w) as [[e | p] w1]; [| constructor].
    cbv zeta.
    pose proof (load_retry_warnings el fs i 0
                  (sleep DS SCROLL_PAUSE (snd (scroll_to_bottom DS w1))))
      as Hin.
    assert (Hpre : Forall plausible_warning
                     (@warnings Post Exn
                        [Probe i false;
                         Warn (ScrollFailCount post_count (sfc + 1));
                         Warn (ExnText e); Scroll BodyScrollHeight;
                         Sleep SCROLL_PAUSE; Sleep SCROLL_PAUSE]))
      by (cbn [warnings flat_map app];
          repeat (apply Forall_cons || apply Forall_nil);
          cbn [plausible_warning];
          first [exact I | split; [reflexivity | lia]]).
    destruct (load_retry DS el fs i 0 _) as [tr' p j w4 | tr' j w4];
      cbn [retried_log] in Hin; cbn [log and_then];
      rewrite !warnings_app.
    + apply Forall_app. split; [exact Hpre | exact Hin].
    + apply Forall_app. split; [| apply IH; lia].
      apply Forall_app. split; [exact Hpre | exact Hin].
Qed.

(** X8.  Every warning a harvest logs reports a post count of 0, whatever the
    number of posts already yielded, and a scroll fail count or load fail
    count between 1 and 10. *)
Theorem warnings_report_zero_posts n fr w :
  Forall plausible_warning (warnings (fst (fst (consume DS n fr w)))).
Proof.
  revert fr w. induction n as [| n IH]; intros fr w; [constructor |].
  rewrite consume_S. cbv zeta.
  assert (Hstep : Forall plausible_warning (warnings (log (next DS fr w)))).
  { destruct fr as [fo | el fs i sfc | el fs i sfc lfc | i sfc | c].
    - unfold next, scroll_to_top.
      destruct (find_feed_el DS _) as [[e | el] w1]; cbn [log and_then].
      + constructor.
      + rewrite warnings_app. apply Forall_app. split; [constructor |].
        apply harvest_warnings.
    - apply harvest_warnings.
    - apply harvest_warnings.
    - constructor.
    - constructor. }
  destruct (sig (next DS fr w)) as [post | |]; try exact Hstep.
  specialize (IH (after (next DS fr w)) (now (next DS fr w))).
  destruct (consume DS n _ _) as [[tr fr'] w']. cbn [fst] in *.
  rewrite warnings_app. apply Forall_app. now split.
Qed.

End MoreFacts.

(** * Further properties of the sidebar advertisements *)

Section SidebarMore.

Variables Page WebElement : Type.
Variable find_elements : Page -> list WebElement.
Variable el_text : WebElement -> Sidebar.str.

Lemma make_ad_two (lst : list Sidebar.str) :
  List.length lst = 2 -> exists ad, Sidebar.make_ad lst = inr ad.
Proof.
  destruct lst as [| t [| l [| x lst]]]; try discriminate. now eexists.
Qed.

Lemma make_ad_other (lst : list Sidebar.str) :
  List.length lst <> 2 ->
  Sidebar.make_ad lst = inl (Sidebar.WrongArity (List.length lst)).
Proof.
  destruct lst as [| t [| l [| x lst]]]; try reflexivity. now intros [].
Qed.

(** X9.  [get_sidebar_ads] raises exactly when the text of some advertiser
    element has not two lines, and the error is that of the first such
    element in page order: it reports the number of lines of that element. *)
Theorem get_sidebar_ads_error (page : Page) k :
  Sidebar.get_sidebar_ads find_elements el_text page
    = inl (Sidebar.WrongArity k)
  <->
  exists pre el post,
    find_elements page = pre ++ el :: post /\
    Forall (fun el' => List.length (Sidebar.splitlines (el_text el')) = 2) pre /\
    List.length (Sidebar.splitlines (el_text el)) = k /\ k <> 2.
Proof.
  unfold Sidebar.get_sidebar_ads. generalize (find_elements page) as els.
  intros els.
  induction els as [| el els IH]; cbn [map Sidebar.list_map].
  - split; [discriminate |]. intros (pre & el & post & E & _).
    destruct pre; discriminate.
  - destruct (Nat.eq_dec (List.length (Sidebar.splitlines (el_text el))) 2)
      as [Htwo | Hother].
    + destruct (make_ad_two _ Htwo) as (ad & ->). split.
      * destruct (Sidebar.list_map _ _) as [err | ads] eqn:E; [| discriminate].
        intros [= ->].
        destruct (proj1 IH eq_refl) as (pre & el' & post & -> & Hpre & Hk & Hne).
        exists (el :: pre), el', post. repeat split; auto.
      * intros (pre & el' & post & E & Hpre & Hk & Hne).
        destruct pre as [| x pre]; cbn [app] in E; injection E as <- ->.
        -- congruence.
        -- inversion Hpre; subst.
           assert (Hrec : Sidebar.list_map Sidebar.make_ad
                            (map Sidebar.splitlines
                               (map el_text (pre ++ el' :: post)))
                          = inl (Sidebar.WrongArity
                                   (List.length
                                      (Sidebar.splitlines (el_text el')))))
             by (apply IH; exists pre, el', post; auto).
           now rewrite Hrec.
    + rewrite (make_ad_other _ Hother). split.
      * intros [= <-]. exists [], el, els. repeat split; auto.
      * intros (pre & el' & post & E & Hpre & Hk & Hne).
        destruct pre as [| x pre]; cbn [app] in E; injection E as <- ->.
        -- now rewrite Hk.
        -- inversion Hpre; subst. contradiction.
Qed.

(** *** Reading back a name and a link *)

Lemma boundary_not_lf c :
  Sidebar.is_line_boundary c = false -> N.eqb c 10 = false.
Proof.
  intros H. destruct (N.eqb c 10) eqn:E; [| reflexivity].
  apply N.eqb_eq in E. subst c. discriminate.
Qed.

Lemma splitlines_from_plain (s : Sidebar.str) : forall acc rest,
  boundary_free s ->
  Sidebar.splitlines_from false acc (s ++ rest) =
  Sidebar.splitlines_from false (rev s ++ acc) rest.
Proof.
  induction s as [| c s IH]; intros acc rest Hs; [reflexivity |].
  inversion Hs as [| ? ? Hc Hs']; subst.
  cbn [app Sidebar.splitlines_from andb]. rewrite Hc, IH by assumption.
  cbn [rev]. now rewrite <- app_assoc.
Qed.

Lemma splitlines_from_last_line (l : Sidebar.str) b :
  boundary_free l -> l <> [] ->
  Sidebar.splitlines_from b [] l = [l].
Proof.
  intros Hl Hne. destruct l as [| c l]; [contradiction |].
  inversion Hl as [| ? ? Hc Hl']; subst.
  cbn [Sidebar.splitlines_from]. rewrite (boundary_not_lf c Hc), Hc.
  rewrite andb_false_r.
  rewrite <- (app_nil_r l) at 1. rewrite splitlines_from_plain by assumption.
  cbn [Sidebar.splitlines_from].
  destruct (rev l ++ [c]) as [| x xs] eqn:E.
  - destruct (rev l); discriminate.
  - rewrite <- E, rev_app_distr, rev_involutive. reflexivity.
Qed.

Lemma splitlines_name_link (name sep link : Sidebar.str) :
  boundary_free name -> boundary_free link -> link <> [] -> line_break sep ->
  Sidebar.splitlines (name ++ sep ++ link) = [name; link].
Proof.
  intros Hn Hl Hne Hsep. unfold Sidebar.splitlines.
  rewrite splitlines_from_plain by assumption. rewrite app_nil_r.
  destruct Hsep as [(c & -> & Hc) | ->].
  - cbn [app Sidebar.splitlines_from andb]. rewrite Hc, rev_involutive.
    now rewrite splitlines_from_last_line.
  - cbn. rewrite rev_involutive.
    now rewrite splitlines_from_last_line.
Qed.

(** X10.  A page whose advertiser elements read name, one line break, link (the
    name and the link without line boundary, the link not empty) is read
    back exactly: one [SidebarAd(name, link)] per element, in page order.
    The line break may be any single boundary character or CR LF. *)
Theorem get_sidebar_ads_reads_back (page : Page)
    (items : list (Sidebar.str * Sidebar.str * Sidebar.str)) :
  Forall (fun '(name, sep, link) =>
            boundary_free name /\ boundary_free link /\ link <> [] /\
            line_break sep) items ->
  map el_text (find_elements page) =
    map (fun '(name, sep, link) => name ++ sep ++ link) items ->
  Sidebar.get_sidebar_ads find_elements el_text page =
    inr (map (fun '(name, _, link) =>
                {| Sidebar.text := name; Sidebar.link := link |}) items).
Proof.
  intros Hok Htexts. unfold Sidebar.get_sidebar_ads. rewrite Htexts.
  clear Htexts. induction Hok as [| [[name sep] link] items Hitem _ IH];
    [reflexivity |].
  destruct Hitem as (Hn & Hl & Hne & Hsep).
  cbn [map Sidebar.list_map].
  rewrite (splitlines_name_link name sep link Hn Hl Hne Hsep).
  cbn [Sidebar.make_ad]. now rewrite IH.
Qed.

End SidebarMore.

(** * The constructors *)

Section LoginFacts.

Variables Element Exn : Type.
Variable B : Login.Browser Element Exn.

Ltac unfold_login :=
  cbv beta iota zeta delta
    [Login.feed_init Login.home_feed_init Login.bind Login.try_pass
     Login.ret Login.find_and_type Login.find_and_click Login.do_find
     Login.do_get Login.do_implicitly_wait Login.do_send_keys Login.do_click
     Login.do_confirm Login.do_sleep fst snd].

Ltac run_lookups :=
  unfold_login;
  repeat match goal with
         | |- context [Login.find_element B ?l ?w] =>
             destruct (Login.find_element B l w) as [[? | ?] ?];
             unfold_login
         end.

(** X11.  [Feed.__init__] never lets a NoSuchElementException out, and it fills
    the login form strictly in order, stopping at the first element that is
    missing: without the [email] field nothing is typed; with it but without
    the [pass] field only the e-mail is typed; the [login] button is clicked
    only after both were typed, and only then is the implicit wait set a
    second time.  The e-mail goes to the element [email] and the password to
    the element [pass], never anywhere else. *)
Theorem feed_init_fills_the_form_in_order email password data_dir w0 :
  let r := Login.feed_init B email password data_dir w0 in
  let tr := snd r in
  fst (fst r) = inr tt /\
  ((Login.finds tr = [(Login.ById "email", false)] /\
    Login.sent tr = [] /\ Login.clicks tr = [] /\
    Login.waits tr = [0.5%Q])
   \/
   (Login.finds tr = [(Login.ById "email", true); (Login.ById "pass", false)] /\
    Login.sent tr = [(Login.ById "email", email)] /\ Login.clicks tr = [] /\
    Login.waits tr = [0.5%Q])
   \/
   (Login.finds tr = [(Login.ById "email", true); (Login.ById "pass", true);
                      (Login.ByName "login", false)] /\
    Login.sent tr = [(Login.ById "email", email);
                     (Login.ById "pass", password)] /\
    Login.clicks tr = [] /\ Login.waits tr = [0.5%Q])
   \/
   (Login.finds tr = [(Login.ById "email", true); (Login.ById "pass", true);
                      (Login.ByName "login", true)] /\
    Login.sent tr = [(Login.ById "email", email);
                     (Login.ById "pass", password)] /\
    Login.clicks tr = [Login.ByName "login"] /\
    Login.waits tr = [0.5%Q; 0.5%Q])).
Proof.
  run_lookups; cbn; (split; [reflexivity |]);
    first [ left; repeat split; reflexivity
          | right; left; repeat split; reflexivity
          | right; right; left; repeat split; reflexivity
          | right; right; right; repeat split; reflexivity ].
Qed.

(** X12.  [HomeFeed.__init__] does first all that [Feed.__init__] does; it never
    lets a NoSuchElementException out; it sleeps its three seconds exactly
    when it found and clicked the home button; and on every path the last
    implicit wait it sets, the one in force afterwards, is 5 seconds. *)
Theorem home_feed_init_ends_with_wait_of_five email password data_dir w0 :
  let r := Login.home_feed_init B email password data_dir w0 in
  let tr := snd r in
  fst (fst r) = inr tt /\
  (exists rest,
     tr = snd (Login.feed_init B email password data_dir w0) ++ rest /\
     (rest = [Login.Find Login.home_button false; Login.ImplicitlyWait 5%Q] \/
      rest = [Login.Find Login.home_button true;
              Login.Click Login.home_button; Login.Confirm "Clicked home";
              Login.Sleep 3%Q; Login.ImplicitlyWait 5%Q])) /\
  last (Login.waits tr) 0%Q = 5%Q /\
  (Login.naps tr = [3%Q] /\ In Login.home_button (Login.clicks tr) \/
   Login.naps tr = [] /\ ~ In Login.home_button (Login.clicks tr)).
Proof.
  run_lookups; cbn; (split; [reflexivity |]);
    (split;
     [ eexists; split;
       [ reflexivity | first [left; reflexivity | right; reflexivity] ] |]);
    (split; [reflexivity |]);
    first [ left; split; [reflexivity | cbn; auto]
          | right; split;
            [reflexivity | cbv; intros H; intuition discriminate] ].
Qed.

End LoginFacts.

(** * Instances on the stub sessions *)

Lemma browse_never_found_exhausts_witness :
  let s := next (Stub.windowed 0) (browse None) 0 in
  sig s = StopIteration /\ yields (log s) = [] /\
  scroll_cycles (log s) = 10 /\ probes (log s) = exhausted 1 10 /\
  after s = Returned 11 10.
Proof.
  apply (browse_never_found_exhausts _ _ _ _ (Stub.windowed 0) None 0 0 1).
  - intros el' i fs w' Hi. destruct i; [lia | reflexivity].
  - reflexivity.
Defined.

Lemma browse_aborts_without_feed_witness :
  let s := next Stub.no_feed (browse None) tt in
  sig s = SystemExit 1 /\
  log s = [Scroll (Offset 1); FindFeed false;
           LogError "Could not find feed element!"; Print 0] /\
  probes (log s) = [] /\ yields (log s) = [] /\
  (forall n, consume Stub.no_feed (S n) (browse None) tt
             = (log s, Exited 1, tt)) /\
  sig (next Stub.no_feed (after s) (now s)) = StopIteration /\
  log (next Stub.no_feed (after s) (now s)) = [].
Proof.
  apply (browse_aborts_without_feed _ _ _ _ Stub.no_feed None tt 0 tt).
  reflexivity.
Defined.

Lemma three_items_then_exhausted_witness :
  let '(tr, fr, _) := consume (Stub.windowed 3) 5 (browse None) 0 in
  positions_yielded tr = [1; 2; 3] /\ List.length (yields tr) = 3 /\
  fr = Returned 14 10 /\ scroll_cycles tr = 10.
Proof.
  apply (three_items_then_exhausted _ _ _ _ (Stub.windowed 3) None 0 0 1 5).
  - intros el' i fs w' Hi.
    destruct i as [| [| [| [| i]]]]; try lia; reflexivity.
  - intros el' i fs w' Hi.
    destruct i as [| [| [| [| i]]]]; try lia; reflexivity.
  - reflexivity.
  - lia.
Defined.

Lemma emitted_positions_are_one_to_N_witness :
  let script := [false; false; true; true; false; true] in
  let tr := fst (fst (consume Stub.scripted 5 (browse None) script)) in
  (forall p, In p (positions_found tr) <-> 1 <= p <= 3) /\
  positions_yielded tr = seq 1 3 /\ List.length (yields tr) = 3 /\
  StronglySorted lt (positions_yielded tr).
Proof.
  assert (H : forall p,
             In p (positions_found
                     (fst (fst (consume Stub.scripted 5 (browse None)
                                  [false; false; true; true; false; true]))))
             <-> 1 <= p <= 3)
    by (intros p; vm_compute; lia).
  split; [exact H |].
  exact (emitted_positions_are_one_to_N _ _ _ _ Stub.scripted 5 None
           [false; false; true; true; false; true] 3 H).
Defined.

Lemma exhausted_retries_move_on_witness :
  let DS := Stub.windowed 0 in
  let rest := harvest DS 0 [tt] 2 1 1 in
  (exists pre,
     harvest DS 0 [tt] 1 0 0 = and_then pre rest /\
     scroll_cycles pre = 1 /\ yields pre = []) /\
  hd_error (probes (log rest)) = Some (2, false) /\
  1 <= scroll_cycles (log rest).
Proof.
  destruct (exhausted_retries_move_on _ _ _ _ (Stub.windowed 0) 0 [tt] 1 0 0 1 0
              (retried_log (load_retry (Stub.windowed 0) 0 [tt] 1 0 1)) 10 1)
    as (_ & Hpre & Hnext & _); [lia | reflexivity | reflexivity |].
  destruct Hnext as (Hhd & Hscroll); [lia |].
  split; [exact Hpre |]. split; [exact Hhd | apply Hscroll; reflexivity].
Defined.

Lemma found_on_retry_resets_witness :
  let s := next Stub.scripted (browse None) [false; false; true] in
  let s' := next Stub.scripted (after s) (now s) in
  after s = AtRetryYield 0 [tt] 1 1 1 /\
  s' = harvest Stub.scripted 0 [tt] 2 0 [] /\
  hd_error (probes (log s')) = Some (2, false) /\
  hd_error (warnings (log s')) = Some (ScrollFailCount post_count 1).
Proof.
  split; [reflexivity |].
  destruct (found_on_retry_resets _ _ _ _ Stub.scripted (browse None)
              [false; false; true] 0 [tt] 1 1 1 eq_refl)
    as (_ & Hs & Hhd & Hwarn).
  split; [exact Hs |]. split; [exact Hhd |].
  exact (proj1 (Hwarn 2 [] eq_refl)).
Defined.

Lemma browse_determined_by_responses_witness :
  let r1 := consume Stub.scripted 4 (browse None) [true; true] in
  let r2 := consume (Stub.windowed 2) 4 (browse (Some [tt; tt])) 0 in
  responses (fst (fst r1)) = responses (fst (fst r2)) /\
  erase (fst (fst r1)) = erase (fst (fst r2)) /\
  positions_probed (fst (fst r1)) = positions_probed (fst (fst r2)) /\
  positions_yielded (fst (fst r1)) = positions_yielded (fst (fst r2)) /\
  control_of (snd (fst r1)) = control_of (snd (fst r2)).
Proof.
  assert (H : responses
                (fst (fst (consume Stub.scripted 4 (browse None)
                             [true; true]))) =
              responses
                (fst (fst (consume (Stub.windowed 2) 4
                             (browse (Some [tt; tt])) 0))))
    by (vm_compute; reflexivity).
  split; [exact H |].
  exact (browse_determined_by_responses _ _ _ _ _ _ _ _
           Stub.scripted (Stub.windowed 2) 4 None (Some [tt; tt])
           [true; true] 0 H).
Defined.

(** An advertiser element whose text is the single line [Acme] makes
    [get_sidebar_ads] raise. *)
Lemma get_sidebar_ads_raises_on_one_line :
  Sidebar.ads_of_texts [Sidebar.of_string "Acme"]
  = inl (Sidebar.WrongArity 1) /\
  ~ (exists ads,
       Sidebar.ads_of_texts [Sidebar.of_string "Acme"] = inr ads).
Proof.
  split; [reflexivity |]. intros (ads & H). discriminate H.
Defined.

Lemma get_sidebar_ads_two_line_texts_witness :
  let page := [Sidebar.of_string "Acme" ++ [10%N] ++ Sidebar.of_string "acme.com";
               Sidebar.of_string "Bolt" ++ [13%N; 10%N] ++ Sidebar.of_string "bolt.io"] in
  exists ads,
    Sidebar.ads_of_texts page = inr ads /\
    map (fun ad => [Sidebar.text ad; Sidebar.link ad]) ads =
      map (fun el => Sidebar.splitlines el) page /\
    (page = [] -> ads = []).
Proof.
  apply (get_sidebar_ads_two_line_texts (list Sidebar.str) Sidebar.str
           (fun page => page) (fun el => el)).
  repeat constructor.
Defined.

(** ** Instances of the further properties *)

Lemma direct_finds_keep_the_count_witness :
  let script := [true] ++ repeat false 11 ++ [true] in
  let r := consume Stub.scripted 2 (browse None) script in
  control_of (snd (fst r)) = CAtYield 3 1 /\
  next_scroll_fail_count (control_of (snd (fst r))) = scroll_cycles (fst (fst r))
  /\ scroll_cycles (fst (fst r)) <= 10.
Proof.
  split; [reflexivity |].
  apply (direct_finds_keep_the_count _ _ _ _ Stub.scripted 2 None
           ([true] ++ repeat false 11 ++ [true])).
  intros p [H1 H2]. vm_compute in H1, H2.
  repeat (destruct H2 as [H2 | H2];
          [ try discriminate H2; injection H2 as <-;
            repeat (destruct H1 as [H1 | H1]; [discriminate H1 |]);
            exact H1 |]).
  exact H2.
Defined.

Lemma yields_are_session_posts_witness :
  exists w0 w', probe (Stub.windowed 3) 0 2 [tt] w0 = (inr 2, w').
Proof.
  apply (yields_are_session_posts _ _ _ _ (Stub.windowed 3) 2 None 0 0 1 2 2).
  - reflexivity.
  - vm_compute. right. left. reflexivity.
Defined.

Lemma no_call_after_the_end_witness :
  let s := next Stub.no_feed (browse None) tt in
  consume Stub.no_feed 3 (after s) tt = ([], after s, tt) /\
  sig (next Stub.no_feed (after s) tt) = StopIteration /\
  now (next Stub.no_feed (after s) tt) = tt.
Proof.
  apply (no_call_after_the_end _ _ _ _ Stub.no_feed (browse None) tt 3 tt).
  intros p. vm_compute. discriminate.
Defined.

Lemma found_at_once_needs_no_scroll_witness :
  let r := consume (Stub.windowed 5) 5 (browse None) 0 in
  positions_yielded (fst (fst r)) = seq 1 5 /\
  probes (fst (fst r)) = map (fun j => (j, true)) (seq 1 5) /\
  scroll_cycles (fst (fst r)) = 0 /\ sleeps (fst (fst r)) = [] /\
  next_position (control_of (snd (fst r))) = 5 + 1.
Proof.
  apply (found_at_once_needs_no_scroll _ _ _ _ (Stub.windowed 5) 5 None 0 0 1).
  - intros el' j fs w' Hj.
    destruct j as [| [| [| [| [| [| j]]]]]]; try lia; reflexivity.
  - reflexivity.
Defined.

Lemma get_sidebar_ads_reads_back_witness :
  let acme := Sidebar.of_string "Acme" in
  let acme_link := Sidebar.of_string "acme.com" in
  let bolt := Sidebar.of_string "Bolt" in
  let bolt_link := Sidebar.of_string "bolt.io" in
  Sidebar.ads_of_texts
    [acme ++ [10%N] ++ acme_link; bolt ++ [13%N; 10%N] ++ bolt_link] =
  inr [ {| Sidebar.text := acme; Sidebar.link := acme_link |};
        {| Sidebar.text := bolt; Sidebar.link := bolt_link |} ].
Proof.
  apply (get_sidebar_ads_reads_back (list Sidebar.str) Sidebar.str
           (fun page => page) (fun el => el)
           [Sidebar.of_string "Acme" ++ [10%N] ++ Sidebar.of_string "acme.com";
            Sidebar.of_string "Bolt" ++ [13%N; 10%N]
              ++ Sidebar.of_string "bolt.io"]
           [(Sidebar.of_string "Acme", [10%N], Sidebar.of_string "acme.com");
            (Sidebar.of_string "Bolt", [13%N; 10%N],
             Sidebar.of_string "bolt.io")]).
  - repeat (apply Forall_cons || apply Forall_nil);
      (split; [repeat constructor |]);
      (split; [repeat constructor |]);
      (split; [discriminate |]).
    + left. exists 10%N. split; reflexivity.
    + right. reflexivity.
  - reflexivity.
Defined.
